(** * Ring resonator: the transmission model and resonance detection

    A shallow embedding of the numeric core of [ring_resonator.py]:
    [RingResonatorAnimation.transmission_function] and the spectrum part of
    [show_transmission_spectrum] (conversion to dB, detection of the
    resonances with [scipy.signal.find_peaks]), followed by the clipping of
    the plotted curve and by the markers and the FSR annotation of the same
    method.

    Modelling conventions.
    - The code of [transmission_function] is embedded twice.  The first
      embedding computes in exact arithmetic: a float64 that holds a number
      is a real number ([Finite x]) and no operation rounds.  It serves where
      only the order of the array entries and the control flow matter
      (detection, clipping, annotation) and for the zero divisor at
      [a*r = 1].  The second embedding, [Float64], is the same code over an
      interface of float64 operations.  It is run on IEEE 754 double
      precision numbers ([binary64]) and on real numbers that every
      operation rounds ([rounded]), and it carries the properties of the
      values that the function returns.
    - The three other IEEE values that NumPy produces instead of raising
      ([inf], [-inf], [nan]) are constructors of [npval], so a division by
      zero is visible in the result.
    - In exact arithmetic [np.pi] is [PI], [np.cos] is [cos] and
      [np.log10 x] is [ln x / ln 10].
    - A wavelength is an entry of a NumPy array, as at the only call site, so
      dividing by it warns and never raises.  A zero divisor is taken as the
      positive zero. *)

From Stdlib Require Import Reals.Reals Lra Lia ZArith List Bool Arith.
From Stdlib Require Import Sorted Permutation.
From Stdlib Require Import Floats.
Import ListNotations.

Local Open Scope R_scope.

(** ** NumPy scalars *)

Inductive npval : Type :=
| Finite (x : R)
| PosInf
| NegInf
| NaN.

(** [x / y] on two float64 numbers: NumPy warns and returns [nan] for [0/0]
    and a signed infinity for [x/0]; it never raises. *)
Definition np_divide (x y : R) : npval :=
  if Req_dec_T y 0 then
    if Req_dec_T x 0 then NaN
    else if Rlt_dec 0 x then PosInf else NegInf
  else Finite (x / y).

(** [np.log10 x]: [-inf] at zero and [nan] below. *)
Definition np_log10 (x : R) : npval :=
  if Rlt_dec 0 x then Finite (ln x / ln 10)
  else if Req_dec_T x 0 then NegInf else NaN.

(** A float64 is a number. *)
Definition is_number (v : npval) : Prop := exists x, v = Finite x.

(** ** The parameters of the ring *)

Record ResonatorParameters : Type := mkParams {
  n_eff : R;          (* self.n_eff *)
  L : R;              (* self.L *)
  r : R;              (* self.r *)
  a : R;              (* self.a *)
  lambda_center : R   (* self.lambda_center *)
}.

(** ** [transmission_function] *)

(** [phi = 2 * np.pi * self.n_eff * self.L / wavelength] *)
Definition phase (p : ResonatorParameters) (wavelength : R) : npval :=
  np_divide (2 * PI * n_eff p * L p) wavelength.

(** [numerator = a**2 - 2*a*r*np.cos(phi) + r**2] *)
Definition numerator (p : ResonatorParameters) (phi : R) : R :=
  (a p) ^ 2 - 2 * a p * r p * cos phi + (r p) ^ 2.

(** [denominator = 1 - 2*a*r*np.cos(phi) + (a*r)**2] *)
Definition denominator (p : ResonatorParameters) (phi : R) : R :=
  1 - 2 * a p * r p * cos phi + (a p * r p) ^ 2.

(** The body of [transmission_function] after [phi] has been computed:
    [return numerator / denominator]. *)
Definition transmission_of_phase (p : ResonatorParameters) (phi : R) : npval :=
  np_divide (numerator p phi) (denominator p phi).

(** [transmission_function(self, wavelength)].  When [phi] is not a number
    ([wavelength] is zero), [np.cos(phi)] is [nan] and so is the result. *)
Definition transmission_function (p : ResonatorParameters) (wavelength : R)
  : npval :=
  match phase p wavelength with
  | Finite phi => transmission_of_phase p phi
  | _ => NaN
  end.

(** Physically valid coupling and loss coefficients. *)
Definition valid_coefficients (p : ResonatorParameters) : Prop :=
  0 <= r p < 1 /\ 0 <= a p < 1.

(** ** The spectrum arrays of [show_transmission_spectrum] *)

(** Array-with-scalar arithmetic on float64 values. *)
Definition np_add_scalar (v : npval) (c : R) : npval :=
  match v with
  | Finite x => Finite (x + c)
  | other => other
  end.

Definition np_scale (c : R) (v : npval) : npval :=
  match v with
  | Finite x => Finite (c * x)
  | PosInf =>
      if Rlt_dec 0 c then PosInf else if Rlt_dec c 0 then NegInf else NaN
  | NegInf =>
      if Rlt_dec 0 c then NegInf else if Rlt_dec c 0 then PosInf else NaN
  | NaN => NaN
  end.

Definition np_negative (v : npval) : npval :=
  match v with
  | Finite x => Finite (- x)
  | PosInf => NegInf
  | NegInf => PosInf
  | NaN => NaN
  end.

Definition np_log10_val (v : npval) : npval :=
  match v with
  | Finite x => np_log10 x
  | PosInf => PosInf
  | NegInf => NaN
  | NaN => NaN
  end.

(** The comparisons [<], [==] and [<=] of float64: false as soon as one side
    is [nan]. *)
Definition np_ltb (v w : npval) : bool :=
  match v, w with
  | Finite x, Finite y => if Rlt_dec x y then true else false
  | NegInf, Finite _ | NegInf, PosInf | Finite _, PosInf => true
  | _, _ => false
  end.

Definition np_eqb (v w : npval) : bool :=
  match v, w with
  | Finite x, Finite y => if Req_dec_T x y then true else false
  | PosInf, PosInf | NegInf, NegInf => true
  | _, _ => false
  end.

Definition np_leb (v w : npval) : bool := np_ltb v w || np_eqb v w.

(** [np.linspace(start, stop, num)] *)
Definition linspace (start stop : R) (num : nat) : list R :=
  map (fun i => INR i * ((stop - start) / INR (num - 1)) + start) (seq 0 num).

(** One entry of [10 * np.log10(transmission + 1e-10)]. *)
Definition dB (t : npval) : npval :=
  np_scale 10 (np_log10_val (np_add_scalar t 1e-10)).

(** [transmission_dB = 10 * np.log10(transmission + 1e-10)] *)
Definition transmission_dB (transmission : list npval) : list npval :=
  map dB transmission.

(** ** [scipy.signal.find_peaks]

    The source finds the resonances with
    [find_peaks(-transmission_dB, height=5, distance=20)].  The routine belongs
    to SciPy; the definitions below follow its three stages
    ([_local_maxima_1d], the [height] condition of [_select_by_property] and
    [_select_by_peak_distance]), over any array type with the float
    comparisons.  [np.argsort] breaks ties in an order the library does not
    fix, so it stays a parameter. *)

Section FindPeaks.

Context {A : Type}.
Variable ltb : A -> A -> bool.      (* [u < v] *)
Variable eqb : A -> A -> bool.      (* [u == v] *)
Variable leb : A -> A -> bool.      (* [u <= v] *)
Variable argsort : list A -> list nat.
Variable dflt : A.                  (* never read: all indices are in range *)

(** [while i_ahead < i_max and x[i_ahead] == x[i]: i_ahead += 1] *)
Fixpoint skip_equal (fuel : nat) (x : list A) (i i_ahead i_max : nat) : nat :=
  match fuel with
  | O => i_ahead
  | S fuel' =>
      if (i_ahead <? i_max)%nat && eqb (nth i_ahead x dflt) (nth i x dflt)
      then skip_equal fuel' x i (S i_ahead) i_max
      else i_ahead
  end.

(** The [while i < i_max] loop of [_local_maxima_1d]; a found maximum is
    recorded as (midpoint, left edge, right edge). *)
Fixpoint local_maxima_loop (fuel : nat) (x : list A) (i i_max : nat)
  : list (nat * nat * nat) :=
  match fuel with
  | O => []
  | S fuel' =>
      if (i <? i_max)%nat then
        if ltb (nth (i - 1) x dflt) (nth i x dflt) then
          let i_ahead := skip_equal i_max x i (i + 1) i_max in
          if ltb (nth i_ahead x dflt) (nth i x dflt) then
            let left_edge := i in
            let right_edge := (i_ahead - 1)%nat in
            ((left_edge + right_edge) / 2, left_edge, right_edge)%nat
              :: local_maxima_loop fuel' x (i_ahead + 1) i_max
          else local_maxima_loop fuel' x (i + 1) i_max
        else local_maxima_loop fuel' x (i + 1) i_max
      else []
  end.

(** [_local_maxima_1d(x)]: [i] starts at 1 and [i_max] is the last index. *)
Definition local_maxima_1d (x : list A) : list (nat * nat * nat) :=
  local_maxima_loop (length x) x 1 (length x - 1).

(** [peak_heights = x[peaks]; keep = (hmin <= peak_heights);
    peaks = peaks[keep]] *)
Definition select_by_height (x : list A) (hmin : A) (peaks : list nat)
  : list nat :=
  filter (fun pk => leb hmin (nth pk x dflt)) peaks.

(** [keep[k] = 0] *)
Fixpoint clear_flag (keep : list bool) (k : nat) : list bool :=
  match keep, k with
  | [], _ => []
  | _ :: rest, O => false :: rest
  | b :: rest, S k' => b :: clear_flag rest k'
  end.

(** [k = j - 1; while 0 <= k and peaks[j] - peaks[k] < distance_:
    keep[k] = 0; k -= 1].  The argument [k1] is [k + 1]. *)
Fixpoint flag_earlier (peaks : list nat) (distance_ : Z) (j k1 : nat)
  (keep : list bool) : list bool :=
  match k1 with
  | O => keep
  | S k =>
      if (Z.of_nat (nth j peaks O) - Z.of_nat (nth k peaks O) <? distance_)%Z
      then flag_earlier peaks distance_ j k (clear_flag keep k)
      else keep
  end.

(** [k = j + 1; while k < peaks_size and peaks[k] - peaks[j] < distance_:
    keep[k] = 0; k += 1] *)
Fixpoint flag_later (fuel : nat) (peaks : list nat) (distance_ : Z)
  (j k : nat) (keep : list bool) : list bool :=
  match fuel with
  | O => keep
  | S fuel' =>
      if (k <? length peaks)%nat
         && (Z.of_nat (nth k peaks O) - Z.of_nat (nth j peaks O) <? distance_)%Z
      then flag_later fuel' peaks distance_ j (S k) (clear_flag keep k)
      else keep
  end.

(** One pass of the [for i in range(peaks_size - 1, -1, -1)] loop, for the
    peak at position [j = priority_to_position[i]]. *)
Definition distance_step (peaks : list nat) (distance_ : Z)
  (keep : list bool) (j : nat) : list bool :=
  if nth j keep false then
    let keep1 := flag_earlier peaks distance_ j j keep in
    flag_later (length peaks) peaks distance_ j (j + 1) keep1
  else keep.

(** [_select_by_peak_distance(peaks, priority, distance)]: the [keep]
    flags. *)
Definition select_by_peak_distance (peaks : list nat) (priority : list A)
  (distance_ : Z) : list bool :=
  let priority_to_position := argsort priority in
  fold_left (distance_step peaks distance_) (rev priority_to_position)
    (repeat true (length peaks)).

(** [peaks[keep]] *)
Fixpoint take_flagged (peaks : list nat) (keep : list bool) : list nat :=
  match peaks, keep with
  | pk :: peaks', b :: keep' =>
      if b then pk :: take_flagged peaks' keep' else take_flagged peaks' keep'
  | _, _ => []
  end.

(** [find_peaks(x, height=height, distance=distance)], its first result. *)
Definition find_peaks (x : list A) (height : A) (distance : Z) : list nat :=
  let peaks := map (fun m => fst (fst m)) (local_maxima_1d x) in
  let peaks := select_by_height x height peaks in
  let keep :=
    select_by_peak_distance peaks (map (fun pk => nth pk x dflt) peaks)
      distance in
  take_flagged peaks keep.

End FindPeaks.

(** A stable [argsort], one of the orders [np.argsort] may return. *)
Section Argsort.

Context {A : Type}.
Variable ltb : A -> A -> bool.
Variable dflt : A.

Fixpoint insert_position (priority : list A) (j : nat) (sorted : list nat)
  : list nat :=
  match sorted with
  | [] => [j]
  | k :: rest =>
      if ltb (nth k priority dflt) (nth j priority dflt)
      then k :: insert_position priority j rest
      else j :: sorted
  end.

Definition stable_argsort (priority : list A) : list nat :=
  fold_right (insert_position priority) [] (seq 0 (length priority)).

End Argsort.

(** ** Resonance detection *)

(** [peaks_idx, _ = find_peaks(-transmission_dB, height=5, distance=20)] *)
Definition peaks_idx (argsort : list npval -> list nat)
  (transmission_dB : list npval) : list nat :=
  find_peaks np_ltb np_eqb np_leb argsort NaN
    (map np_negative transmission_dB) (Finite 5) 20.

(** The resonances of a sampled spectrum: the indices found on its dB
    values. *)
Definition resonance_indices (argsort : list npval -> list nat)
  (transmission : list npval) : list nat :=
  peaks_idx argsort (transmission_dB transmission).

(** [lambda_nm[idx]] for the indices found. *)
Definition resonance_wavelengths (wavelengths : list R) (idx : list nat)
  : list R :=
  map (fun i => nth i wavelengths 0) idx.

(** ** Local extrema of a sampled sequence *)

(** Sample [i] of [v] (of length [n]) is a peak in the sense of
    [_local_maxima_1d]: the middle, rounded down, of a run [l..r] of equal
    samples with a strictly lower sample right before and right after. *)
Definition flat_peak (v : nat -> R) (n i : nat) : Prop :=
  exists l r : nat,
    (1 <= l <= r)%nat /\ (r + 1 < n)%nat /\ i = ((l + r) / 2)%nat /\
    (forall k, (l <= k <= r)%nat -> v k = v l) /\
    v (l - 1)%nat < v l /\ v (r + 1)%nat < v l.

(** The same for minima: the middle of a flat dip. *)
Definition flat_dip (T : nat -> R) (n i : nat) : Prop :=
  exists l r : nat,
    (1 <= l <= r)%nat /\ (r + 1 < n)%nat /\ i = ((l + r) / 2)%nat /\
    (forall k, (l <= k <= r)%nat -> T k = T l) /\
    T l < T (l - 1)%nat /\ T l < T (r + 1)%nat.

(** Sample [i] is lower than both its neighbours. *)
Definition strict_local_min (T : nat -> R) (n i : nat) : Prop :=
  (1 <= i)%nat /\ (i + 1 < n)%nat /\
  T i < T (i - 1)%nat /\ T i < T (i + 1)%nat.

(** Depth of a transmission value on the dB scale:
    [-(10 * log10(t + 1e-10))]. *)
Definition depth_dB (t : R) : R := - (10 * (ln (t + 1e-10) / ln 10)).

(** Index [i] is at least [distance] samples away from every other index of
    [idx]. *)
Definition separated (distance : Z) (idx : list nat) (i : nat) : Prop :=
  forall j, In j idx -> j <> i ->
    (distance <= Z.abs (Z.of_nat i - Z.of_nat j))%Z.

(** Sample [i] is not higher than its neighbours. *)
Definition weak_local_min (T : nat -> R) (n i : nat) : Prop :=
  (1 <= i)%nat /\ (i + 1 < n)%nat /\
  T i <= T (i - 1)%nat /\ T i <= T (i + 1)%nat.

(** A run [l..r] of equal samples with strictly lower neighbours. *)
Definition run_peak (v : nat -> R) (n l r : nat) : Prop :=
  (1 <= l <= r)%nat /\ (r + 1 < n)%nat /\
  (forall k, (l <= k <= r)%nat -> v k = v l) /\
  v (l - 1)%nat < v l /\ v (r + 1)%nat < v l.

(** The number held by a float64. *)
Definition np_value (v : npval) : R :=
  match v with
  | Finite x => x
  | _ => 0
  end.

(** A transmission value of a SpectrumSample: a number in [0,1]. *)
Definition in_unit_interval (v : npval) : Prop :=
  exists t, v = Finite t /\ 0 <= t <= 1.

(** The condition under which index [i] counts as a resonance of the
    transmission values [T], for a given notion of local minimum: deep
    enough, and far enough from the other indices found. *)
Definition resonance_condition
  (local_min : (nat -> R) -> nat -> nat -> Prop)
  (transmission : list npval) (found : list nat) (i : nat) : Prop :=
  let T := fun k => np_value (nth k transmission NaN) in
  local_min T (length transmission) i /\
  5 <= depth_dB (T i) /\
  separated 20 found i.

(** ** The state of the selection by distance *)

(** The peaks at positions [j] and [q] are closer than [distance]. *)
Definition close_peaks (peaks : list nat) (distance : Z) (j q : nat) : Prop :=
  (Z.abs (Z.of_nat (nth j peaks O) - Z.of_nat (nth q peaks O)) < distance)%Z.

(** Every visited peak that is kept has had its close neighbours cleared,
    and every cleared peak is close to a visited peak that is kept. *)
Definition selection_invariant (peaks : list nat) (distance : Z)
  (visited : list nat) (keep : list bool) : Prop :=
  length keep = length peaks /\
  (forall j q, In j visited -> nth j keep false = true ->
     (q < length peaks)%nat -> q <> j -> close_peaks peaks distance j q ->
     nth q keep false = false) /\
  (forall q, (q < length peaks)%nat -> nth q keep false = false ->
     exists j, In j visited /\ (j < length peaks)%nat /\
       nth j keep false = true /\ q <> j /\ close_peaks peaks distance j q).

(** ** Two sampled spectra

    Both sample a critically coupled ring (r = a = 0.5) at four evenly
    spaced wavelengths. *)

Definition flat_sample : list npval :=
  map (transmission_function (mkParams 20 1 0.5 0.5 1)) (linspace 3 6 4).

Definition shelf_sample : list npval :=
  map (transmission_function (mkParams 6 1 0.5 0.5 1)) (linspace 1 4 4).

(** ** [find_peaks] on integer arrays

    The model runs on any array type; a few runs on integers. *)

Definition find_peaks_Z (x : list Z) (height distance : Z) : list nat :=
  find_peaks Z.ltb Z.eqb Z.leb (stable_argsort Z.ltb 0%Z) 0%Z x height
    distance.

(** ** The plotted curve *)

(** [np.clip(v, a_min, a_max)], that is
    [np.minimum(a_max, np.maximum(v, a_min))]: [nan] stays [nan]. *)
Definition np_clip (v : npval) (a_min a_max : R) : npval :=
  match v with
  | Finite x => Finite (Rmin a_max (Rmax x a_min))
  | PosInf => Finite a_max
  | NegInf => Finite (Rmin a_max a_min)
  | NaN => NaN
  end.

(** ** Markers and the FSR annotation of [show_transmission_spectrum] *)

(** What a piece of Python code does: it returns, or raises one of the two
    exceptions the annotation code could raise. *)
Inductive outcome (A : Type) : Type :=
| Returned (x : A)
| IndexError
| NameError.

Arguments Returned {A} x.
Arguments IndexError {A}.
Arguments NameError {A}.

Definition bind {A B : Type} (m : outcome A) (k : A -> outcome B)
  : outcome B :=
  match m with
  | Returned x => k x
  | IndexError => IndexError
  | NameError => NameError
  end.

Notation "x <- m ;; k" := (bind m (fun x => k))
  (at level 61, m at next level, right associativity).

(** [l[i]] for an index [i >= 0]. *)
Definition index {A : Type} (l : list A) (i : nat) : outcome A :=
  match nth_error l i with
  | Some x => Returned x
  | None => IndexError
  end.

(** The attributes and drawings the annotation code leaves behind: the
    marker coordinates, the FSR shown by [self.fsr_text], and the two ends
    of [self.fsr_arrow] in plot coordinates. *)
Record annotations : Type := mkAnnotations {
  resonance_markers : list (R * npval);
  fsr_text : option R;
  fsr_arrow : option ((R * R) * (R * R))
}.

(** [fsr_wavelength = lambda_nm[peaks_idx[1]] - lambda_nm[peaks_idx[0]]] *)
Definition fsr_wavelength (lambda_nm : list R) (peaks_idx : list nat)
  : outcome R :=
  i1 <- index peaks_idx 1 ;;
  l1 <- index lambda_nm i1 ;;
  i0 <- index peaks_idx 0 ;;
  l0 <- index lambda_nm i0 ;;
  Returned (l1 - l0).

(** The loop [for i, idx in enumerate(peaks_idx[:3])], from iteration [i]
    on, over the indices [todo] still to visit. *)
Fixpoint mark_resonances (lambda_nm : list R) (transmission_dB : list npval)
  (peaks_idx : list nat) (i : nat) (todo : list nat)
  (markers : list (R * npval)) (text : option R)
  : outcome (list (R * npval) * option R) :=
  match todo with
  | [] => Returned (markers, text)
  | idx :: rest =>
      wavelength <- index lambda_nm idx ;;
      trans_val <- index transmission_dB idx ;;
      let markers := markers ++ [(wavelength, trans_val)] in
      text <- (if (i =? 0)%nat && (1 <? length peaks_idx)%nat
               then fsr <- fsr_wavelength lambda_nm peaks_idx ;;
                    Returned (Some fsr)
               else Returned text) ;;
      mark_resonances lambda_nm transmission_dB peaks_idx (S i) rest
        markers text
  end.

(** [p1 = axes.c2p(lambda_nm[peaks_idx[0]], -25)] and [p2] likewise, in
    plot coordinates. *)
Definition arrow_ends (lambda_nm : list R) (peaks_idx : list nat)
  : outcome ((R * R) * (R * R)) :=
  i0 <- index peaks_idx 0 ;;
  l0 <- index lambda_nm i0 ;;
  i1 <- index peaks_idx 1 ;;
  l1 <- index lambda_nm i1 ;;
  Returned ((l0, -25), (l1, -25)).

(** The annotation part of [show_transmission_spectrum], on a scene that has
    no attribute [fsr_text] yet.  The local name [fsr_arrow] is bound only
    inside [if len(peaks_idx) >= 2]; reading it unbound raises
    [NameError]. *)
Definition annotate (lambda_nm : list R) (transmission_dB : list npval)
  (peaks_idx : list nat) : outcome annotations :=
  marked <- mark_resonances lambda_nm transmission_dB peaks_idx 0
              (firstn 3 peaks_idx) [] None ;;
  let has_fsr_text :=
    match snd marked with Some _ => true | None => false end in
  local_arrow <- (if has_fsr_text && (2 <=? length peaks_idx)%nat
                  then ends <- arrow_ends lambda_nm peaks_idx ;;
                       Returned (Some ends)
                  else Returned None) ;;
  arrow <- (if has_fsr_text
            then match local_arrow with
                 | Some ends => Returned (Some ends)
                 | None => NameError
                 end
            else Returned None) ;;
  Returned (mkAnnotations (fst marked) (snd marked) arrow).

(** ** Priorities in the selection by distance *)



(** ** float64 arithmetic

    The properties of the values computed by [transmission_function] depend on
    how float64 rounds.  The code of the function is therefore written once
    more over an interface of float64 operations, which is then read in two
    ways: [binary64] computes with IEEE 754 double precision numbers, and
    [rounded] computes with real numbers that every operation rounds. *)

(** The result of a Python expression: a value or the exception that
    [x ** 2] raises on two Python floats when the square overflows. *)
Inductive py_result (A : Type) : Type :=
| Value (v : A)
| OverflowError.

Arguments Value {A} v.
Arguments OverflowError {A}.

Record arithmetic : Type := mkArithmetic {
  float64 : Type;
  f_one : float64;                                (* 1 *)
  f_two : float64;                                (* 2 *)
  np_pi : float64;                                (* np.pi *)
  f_add : float64 -> float64 -> float64;          (* x + y *)
  f_sub : float64 -> float64 -> float64;          (* x - y *)
  f_mul : float64 -> float64 -> float64;          (* x * y *)
  f_div : float64 -> float64 -> float64;          (* x / y, NumPy *)
  py_pow2 : float64 -> py_result float64          (* x ** 2, Python floats *)
}.

Module Float64.

Section Code.

Variable F : arithmetic.

(** [np.cos]: a library function, not part of the arithmetic. *)
Variable np_cos : float64 F -> float64 F.

Record ResonatorParameters : Type := mkParams {
  n_eff : float64 F;          (* self.n_eff *)
  L : float64 F;              (* self.L *)
  r : float64 F;              (* self.r *)
  a : float64 F;              (* self.a *)
  lambda_center : float64 F   (* self.lambda_center *)
}.

(** [phi = 2 * np.pi * self.n_eff * self.L / wavelength] *)
Definition phase (p : ResonatorParameters) (wavelength : float64 F)
  : float64 F :=
  f_div F (f_mul F (f_mul F (f_mul F (f_two F) (np_pi F)) (n_eff p)) (L p))
    wavelength.

(** [2*a*r*np.cos(phi)] *)
Definition cross_term (a r cos_phi : float64 F) : float64 F :=
  f_mul F (f_mul F (f_mul F (f_two F) a) r) cos_phi.

(** [numerator = a**2 - 2*a*r*np.cos(phi) + r**2] *)
Definition numerator (a r cos_phi : float64 F) : py_result (float64 F) :=
  match py_pow2 F a with
  | OverflowError => OverflowError
  | Value a2 =>
      match py_pow2 F r with
      | OverflowError => OverflowError
      | Value r2 => Value (f_add F (f_sub F a2 (cross_term a r cos_phi)) r2)
      end
  end.

(** [denominator = 1 - 2*a*r*np.cos(phi) + (a*r)**2] *)
Definition denominator (a r cos_phi : float64 F) : py_result (float64 F) :=
  match py_pow2 F (f_mul F a r) with
  | OverflowError => OverflowError
  | Value ar2 =>
      Value (f_add F (f_sub F (f_one F) (cross_term a r cos_phi)) ar2)
  end.

(** The body of [transmission_function] from the value of [np.cos(phi)] on:
    the two terms and [return numerator / denominator]. *)
Definition transmission_from_cos (a r cos_phi : float64 F)
  : py_result (float64 F) :=
  match numerator a r cos_phi with
  | OverflowError => OverflowError
  | Value n =>
      match denominator a r cos_phi with
      | OverflowError => OverflowError
      | Value d => Value (f_div F n d)
      end
  end.

(** The body of [transmission_function] after [phi] has been computed. *)
Definition transmission_of_phase (a r phi : float64 F)
  : py_result (float64 F) :=
  transmission_from_cos a r (np_cos phi).

(** [transmission_function(self, wavelength)] *)
Definition transmission_function (p : ResonatorParameters)
    (wavelength : float64 F) : py_result (float64 F) :=
  transmission_of_phase (a p) (r p) (phase p wavelength).




End Code.

Arguments n_eff {F} _.
Arguments L {F} _.
Arguments r {F} _.
Arguments a {F} _.
Arguments lambda_center {F} _.
Arguments mkParams {F}.

End Float64.

Set Warnings "-inexact-float".

(** ** IEEE 754 double precision

    The operations are the primitive binary64 operations.  [x ** 2] on two
    Python floats is C's [pow(x, 2.0)], taken here as the correctly rounded
    square; it raises [OverflowError] when the square of a finite number is
    infinite. *)
Definition binary64_pow2 (x : PrimFloat.float) : py_result PrimFloat.float :=
  let y := PrimFloat.mul x x in
  if PrimFloat.is_infinity y && negb (PrimFloat.is_infinity x)
  then OverflowError else Value y.

Definition binary64 : arithmetic :=
  {| float64 := PrimFloat.float;
     f_one := PrimFloat.one;
     f_two := PrimFloat.two;
     np_pi := 0x1.921fb54442d18p+1%float;
     f_add := PrimFloat.add;
     f_sub := PrimFloat.sub;
     f_mul := PrimFloat.mul;
     f_div := PrimFloat.div;
     py_pow2 := binary64_pow2 |}.

(** A float64 is a number in the closed interval [[0, 1]]. *)
Definition binary64_in_unit_interval (t : PrimFloat.float) : bool :=
  PrimFloat.leb PrimFloat.zero t && PrimFloat.leb t PrimFloat.one.

(** ** Real numbers with rounding

    A float64 that holds a number is the real number it stands for; every
    operation computes the real result and rounds it with [round], which
    yields an infinity when the result overflows.  [pow2 x] is C's
    [pow(x, 2.0)].  Signed zeros are not told apart: a zero divisor is taken
    as the positive zero. *)

Section Rounded.

Variable round : R -> npval.
Variable pow2 : R -> npval.

Definition rounded_add (v w : npval) : npval :=
  match v, w with
  | Finite x, Finite y => round (x + y)
  | NaN, _ | _, NaN => NaN
  | PosInf, NegInf | NegInf, PosInf => NaN
  | PosInf, _ | _, PosInf => PosInf
  | NegInf, _ | _, NegInf => NegInf
  end.

Definition rounded_sub (v w : npval) : npval := rounded_add v (np_negative w).

(** The sign of a product or quotient with an infinity. *)
Definition signed_inf (positive : bool) : npval :=
  if positive then PosInf else NegInf.

Definition inf_times (positive : bool) (x : R) : npval :=
  if Req_dec_T x 0 then NaN
  else signed_inf (if Rlt_dec 0 x then positive else negb positive).

Definition rounded_mul (v w : npval) : npval :=
  match v, w with
  | Finite x, Finite y => round (x * y)
  | NaN, _ | _, NaN => NaN
  | PosInf, Finite x | Finite x, PosInf => inf_times true x
  | NegInf, Finite x | Finite x, NegInf => inf_times false x
  | PosInf, PosInf | NegInf, NegInf => PosInf
  | PosInf, NegInf | NegInf, PosInf => NegInf
  end.

Definition rounded_div (v w : npval) : npval :=
  match v, w with
  | Finite x, Finite y =>
      if Req_dec_T y 0 then
        if Req_dec_T x 0 then NaN
        else if Rlt_dec 0 x then PosInf else NegInf
      else round (x / y)
  | NaN, _ | _, NaN => NaN
  | Finite _, PosInf | Finite _, NegInf => Finite 0
  | PosInf, Finite y => signed_inf (if Rlt_dec y 0 then false else true)
  | NegInf, Finite y => signed_inf (if Rlt_dec y 0 then true else false)
  | _, _ => NaN
  end.

(** [x ** 2] on a Python float. *)
Definition rounded_pow2 (v : npval) : py_result npval :=
  match v with
  | Finite x =>
      match pow2 x with
      | Finite y => Value (Finite y)
      | _ => OverflowError
      end
  | NaN => Value NaN
  | _ => Value PosInf
  end.

Definition rounded : arithmetic :=
  {| float64 := npval;
     f_one := Finite 1;
     f_two := Finite 2;
     np_pi := round PI;
     f_add := rounded_add;
     f_sub := rounded_sub;
     f_mul := rounded_mul;
     f_div := rounded_div;
     py_pow2 := rounded_pow2 |}.

(** [np.cos] from the library's cosine on numbers: [nan] at an infinity. *)
Definition rounded_cos (cos_lib : R -> R) (v : npval) : npval :=
  match v with
  | Finite x => Finite (cos_lib x)
  | _ => NaN
  end.

(** The literal values of [RingResonatorAnimation.construct]; a decimal
    literal is the float64 nearest to it. *)
Definition rounded_construct : Float64.ResonatorParameters rounded :=
  Float64.mkParams (F := rounded)
    (round 2.4)
    (rounded_mul (rounded_mul (Finite 2) (round PI)) (round 10e-6))
    (round 0.9)
    (round 0.95)
    (round 1550e-9).

End Rounded.

(** What the properties below use of float64: rounding to nearest has a
    relative error of at most [2^-53] (and an absolute one below the
    smallest number), it is monotone and keeps 0 and 1; [pow] and [cos] are
    accurate to a few units in the last place, and [cos] stays in
    [[-1, 1]]. *)
Record float64_model (round pow2 : R -> npval) (cos_lib : R -> R) : Prop := {
  round_error : forall x, Rabs x <= 1e300 ->
    exists y, round x = Finite y /\ Rabs (y - x) <= 1.2e-16 * Rabs x + 1e-300;
  round_monotone : forall x x' y y', x <= x' ->
    round x = Finite y -> round x' = Finite y' -> y <= y';
  round_0 : round 0 = Finite 0;
  round_1 : round 1 = Finite 1;
  pow2_error : forall x, Rabs x <= 1e150 ->
    exists y, pow2 x = Finite y /\
              Rabs (y - x * x) <= 2.3e-16 * (x * x) + 1e-300;
  cos_error : forall x,
    Rabs (cos_lib x - cos x) <= 1e-15 /\ -1 <= cos_lib x <= 1
}.

(** Exact arithmetic: nothing is rounded. *)
Definition exact_pow2 (x : R) : npval := Finite (x * x).

Definition exact : arithmetic := rounded Finite exact_pow2.

(** The literal values of [RingResonatorAnimation.construct] in binary64. *)
Definition binary64_construct : Float64.ResonatorParameters binary64 :=
  Float64.mkParams (F := binary64)
    2.4%float
    (2 * np_pi binary64 * 10e-6)%float
    0.9%float
    0.95%float
    1550e-9%float.

(** ** The formula over the real numbers

    The two terms of the formula and its value, as functions of the
    coefficients and of the cosine of the phase. *)
Definition real_numerator (a r c : R) : R := a * a - 2 * a * r * c + r * r.

Definition real_denominator (a r c : R) : R :=
  1 - 2 * a * r * c + (a * r) * (a * r).

Definition real_T (a r c : R) : R :=
  real_numerator a r c / real_denominator a r c.

(** ** Resonances on the dB values

    The condition under which index [i] counts as a resonance, on the array
    [transmission_dB] itself: a flat dip of the dB values, at most [-5] dB,
    and far enough from the other indices found. *)
Definition dB_resonance_condition (transmission_dB : list npval)
  (found : list nat) (i : nat) : Prop :=
  let D := fun k => np_value (nth k transmission_dB NaN) in
  flat_dip D (length transmission_dB) i /\
  D i <= -5 /\
  separated 20 found i.


(** * Properties of the transmission model *)

(** ** Basic facts *)

Lemma np_divide_nonzero (x y : R) : y <> 0 -> np_divide x y = Finite (x / y).
Proof.
  intros Hy. unfold np_divide.
  destruct (Req_dec_T y 0) as [E | _]; [contradiction | reflexivity].
Qed.

Lemma np_divide_zero_zero : np_divide 0 0 = NaN.
Proof.
  unfold np_divide.
  destruct (Req_dec_T 0 0) as [_ | N]; [reflexivity | now elim N].
Qed.

Lemma np_divide_pos_zero (x : R) : 0 < x -> np_divide x 0 = PosInf.
Proof.
  intros Hx. unfold np_divide.
  destruct (Req_dec_T 0 0) as [_ | N]; [| now elim N].
  destruct (Req_dec_T x 0) as [E | _]; [lra |].
  destruct (Rlt_dec 0 x) as [_ | N]; [reflexivity | contradiction].
Qed.

Lemma phase_nonzero (p : ResonatorParameters) (wavelength : R) :
  wavelength <> 0 ->
  phase p wavelength = Finite (2 * PI * n_eff p * L p / wavelength).
Proof. intros H. unfold phase. now apply np_divide_nonzero. Qed.

Lemma transmission_function_phase (p : ResonatorParameters) (wavelength : R) :
  wavelength <> 0 ->
  transmission_function p wavelength
  = transmission_of_phase p (2 * PI * n_eff p * L p / wavelength).
Proof.
  intros H. unfold transmission_function. now rewrite phase_nonzero.
Qed.

(** The two completions of the square behind every bound below. *)
Lemma numerator_square (p : ResonatorParameters) (phi : R) :
  numerator p phi = (a p - r p) ^ 2 + 2 * (a p * r p) * (1 - cos phi).
Proof. unfold numerator. ring. Qed.

Lemma denominator_square (p : ResonatorParameters) (phi : R) :
  denominator p phi = (1 - a p * r p) ^ 2 + 2 * (a p * r p) * (1 - cos phi).
Proof. unfold denominator. ring. Qed.

Lemma one_minus_cos_nonneg (phi : R) : 0 <= 1 - cos phi.
Proof. pose proof (COS_bound phi). lra. Qed.

Lemma product_below_one (x y : R) : 0 <= x < 1 -> 0 <= y < 1 -> 0 <= x * y < 1.
Proof. intros Hx Hy. nra. Qed.

Lemma denominator_lower_bound (p : ResonatorParameters) (phi : R) :
  0 <= a p * r p ->
  (1 - a p * r p) ^ 2 <= denominator p phi.
Proof.
  intros H. rewrite denominator_square.
  pose proof (one_minus_cos_nonneg phi). nra.
Qed.

Lemma denominator_pos (p : ResonatorParameters) (phi : R) :
  valid_coefficients p -> 0 < denominator p phi.
Proof.
  intros [Hr Ha].
  pose proof (product_below_one _ _ Ha Hr) as Har.
  pose proof (denominator_lower_bound p phi (proj1 Har)).
  assert (0 < (1 - a p * r p) ^ 2) by nra. lra.
Qed.

Lemma cos_resonance_nat (k : nat) : cos (2 * PI * INR k) = 1.
Proof.
  replace (2 * PI * INR k) with (0 + 2 * INR k * PI) by ring.
  rewrite cos_period. apply cos_0.
Qed.

Lemma cos_resonance (m : Z) : cos (2 * PI * IZR m) = 1.
Proof.
  destruct (Z_le_gt_dec 0 m) as [Hm | Hm].
  - rewrite <- (Z2Nat.id m Hm), <- INR_IZR_INZ. apply cos_resonance_nat.
  - rewrite <- (Z.opp_involutive m), opp_IZR.
    replace (2 * PI * - IZR (- m)) with (- (2 * PI * IZR (- m))) by ring.
    rewrite cos_neg, <- (Z2Nat.id (- m)) by lia.
    rewrite <- INR_IZR_INZ. apply cos_resonance_nat.
Qed.

Lemma transmission_of_phase_valid (p : ResonatorParameters) (phi : R) :
  valid_coefficients p ->
  transmission_of_phase p phi = Finite (numerator p phi / denominator p phi).
Proof.
  intros Hv. unfold transmission_of_phase. apply np_divide_nonzero.
  pose proof (denominator_pos p phi Hv). lra.
Qed.

(** ** The zero divisor *)

(** At [a*r = 1] on resonance both terms reduce to squares. *)
Lemma degenerate_terms (p : ResonatorParameters) (phi : R) :
  a p * r p = 1 -> cos phi = 1 ->
  numerator p phi = (a p - r p) ^ 2 /\ denominator p phi = 0.
Proof.
  intros Har Hc. rewrite numerator_square, denominator_square, Har, Hc.
  split; ring.
Qed.

(** C3, as the code behaves: on the degenerate input where a*r = 1 and the
    phase is on resonance (cos(phi) = 1, phi = 0 included) the divisor is
    zero and the transmission function has no guard: it divides all the same
    and the result is not a number of any kind, 0 included ([nan] when
    a = r, [inf] otherwise). *)
Theorem transmission_degenerate_unguarded
  (p : ResonatorParameters) (phi : R) :
  a p * r p = 1 ->
  cos phi = 1 ->
  denominator p phi = 0 /\
  transmission_of_phase p phi
  = (if Req_dec_T (a p) (r p) then NaN else PosInf) /\
  ~ is_number (transmission_of_phase p phi).
Proof.
  intros Har Hc.
  destruct (degenerate_terms p phi Har Hc) as [Hn Hd].
  assert (Hval : transmission_of_phase p phi
                 = if Req_dec_T (a p) (r p) then NaN else PosInf).
  { unfold transmission_of_phase. rewrite Hn, Hd.
    destruct (Req_dec_T (a p) (r p)) as [E | N].
    - rewrite E. replace ((r p - r p) ^ 2) with 0 by ring.
      apply np_divide_zero_zero.
    - apply np_divide_pos_zero.
      assert (a p - r p <> 0) by lra.
      pose proof (pow2_ge_0 (a p - r p)).
      assert ((a p - r p) ^ 2 <> 0) by (apply pow_nonzero; assumption).
      lra. }
  split; [exact Hd |]. split; [exact Hval |].
  rewrite Hval. intros [x Hx].
  destruct (Req_dec_T (a p) (r p)); discriminate Hx.
Qed.

Lemma transmission_degenerate_unguarded_witness :
  transmission_of_phase (mkParams 1 1 1 1 1) 0 = NaN.
Proof.
  pose proof (transmission_degenerate_unguarded (mkParams 1 1 1 1 1) 0)
    as [_ [H _]].
  - simpl. lra.
  - apply cos_0.
  - simpl in H. destruct (Req_dec_T 1 1) as [_ | N]; [exact H | now elim N].
Defined.

(** C3 as stated fails: with a = r = 1 and phi = 0 the function returns
    [nan], not the fallback value 0. *)
Lemma transmission_degenerate_not_zero :
  ~ (forall (p : ResonatorParameters) (phi : R),
        a p * r p = 1 -> phi = 0 ->
        transmission_of_phase p phi = Finite 0).
Proof.
  intros H.
  specialize (H (mkParams 1 1 1 1 1) 0).
  assert (Hnan : transmission_of_phase (mkParams 1 1 1 1 1) 0 = NaN).
  { unfold transmission_of_phase, numerator, denominator. simpl.
    rewrite cos_0.
    replace (1 * (1 * 1) - 2 * 1 * 1 * 1 + 1 * (1 * 1)) with 0 by ring.
    replace (1 - 2 * 1 * 1 * 1 + 1 * 1 * (1 * 1 * 1)) with 0 by ring.
    apply np_divide_zero_zero. }
  rewrite Hnan in H.
  assert (Hfalse : NaN = Finite 0) by (apply H; simpl; lra).
  discriminate Hfalse.
Qed.

(** ** Decibels *)

Lemma np_log10_pos (x : R) : 0 < x -> np_log10 x = Finite (ln x / ln 10).
Proof.
  intros Hx. unfold np_log10.
  destruct (Rlt_dec 0 x) as [_ | N]; [reflexivity | contradiction].
Qed.

Lemma dB_finite (t : R) :
  0 <= t -> dB (Finite t) = Finite (10 * (ln (t + 1e-10) / ln 10)).
Proof.
  intros Ht. unfold dB. simpl.
  rewrite np_log10_pos by lra. reflexivity.
Qed.

(** C10: the conversion to decibels adds 1e-10 before the logarithm, so for
    every non-negative transmission value the argument of log10 is strictly
    positive and the dB value is a number. *)
Theorem dB_total (t : R) :
  0 <= t ->
  0 < t + 1e-10 /\
  np_log10 (t + 1e-10) = Finite (ln (t + 1e-10) / ln 10) /\
  dB (Finite t) = Finite (10 * (ln (t + 1e-10) / ln 10)).
Proof.
  intros Ht.
  assert (Hpos : 0 < t + 1e-10) by lra.
  split; [exact Hpos |].
  split; [now apply np_log10_pos | now apply dB_finite].
Qed.

Lemma dB_total_witness :
  0 < 0 + 1e-10 /\
  np_log10 (0 + 1e-10) = Finite (ln (0 + 1e-10) / ln 10) /\
  dB (Finite 0) = Finite (10 * (ln (0 + 1e-10) / ln 10)).
Proof. apply (dB_total 0). lra. Defined.

(** * Properties of resonance detection *)

(** ** Runs on integer arrays *)

(** A flat peak is reported once, at its middle, rounded down. *)
Example find_peaks_flat_odd :
  find_peaks_Z [0; 3; 3; 3; 0]%Z 1 1 = [2%nat].
Proof. reflexivity. Qed.

Example find_peaks_flat_even :
  find_peaks_Z [0; 3; 3; 3; 3; 0]%Z 1 1 = [2%nat].
Proof. reflexivity. Qed.

(** A plateau at either end of the array is no peak. *)
Example find_peaks_edges :
  find_peaks_Z [1; 1; 0; 1; 1]%Z 1 1 = [].
Proof. reflexivity. Qed.

(** The height keeps the peaks of value 2 or more. *)
Example find_peaks_height :
  find_peaks_Z [0; 1; 0; 2; 0; 3; 0; 1; 0]%Z 2 1 = [3%nat; 5%nat].
Proof. reflexivity. Qed.

(** With distance 3 the highest peak, at 5, removes its neighbours at 3 and
    7, and the peak at 1 stays. *)
Example find_peaks_distance :
  find_peaks_Z [0; 1; 0; 2; 0; 3; 0; 1; 0]%Z 1 3 = [1%nat; 5%nat].
Proof. reflexivity. Qed.

(** ** The scan for local maxima *)

Lemma flat_peak_run (v : nat -> R) (n i : nat) :
  flat_peak v n i <-> exists l r, run_peak v n l r /\ i = ((l + r) / 2)%nat.
Proof.
  unfold flat_peak, run_peak. split.
  - intros (l & r & H1 & H2 & H3 & H4 & H5 & H6). exists l, r. tauto.
  - intros (l & r & (H1 & H2 & H4 & H5 & H6) & H3). exists l, r. tauto.
Qed.

Lemma midpoint_bounds (l r : nat) :
  (l <= r -> l <= (l + r) / 2 <= r)%nat.
Proof.
  intros H. split.
  - apply Nat.div_le_lower_bound; lia.
  - apply Nat.Div0.div_le_upper_bound; lia.
Qed.

Section LocalMaxima.

Context {A : Type}.
Variables (ltb eqb : A -> A -> bool) (dflt : A).
Variable x : list A.
Variable v : nat -> R.

(** The comparisons on the entries of [x] are those of the numbers [v]. *)
Hypothesis ltb_v : forall i j, (i < length x)%nat -> (j < length x)%nat ->
  (ltb (nth i x dflt) (nth j x dflt) = true <-> v i < v j).
Hypothesis eqb_v : forall i j, (i < length x)%nat -> (j < length x)%nat ->
  (eqb (nth i x dflt) (nth j x dflt) = true <-> v i = v j).

Local Abbreviation i_max := (length x - 1)%nat.

(** The inner loop stops at the first sample that differs from [x[i]], or
    at the last index. *)
Lemma skip_equal_stops (fuel i i_ahead : nat) :
  (i < i_ahead <= i_max)%nat ->
  (i_max - i_ahead <= fuel)%nat ->
  (forall k, (i < k < i_ahead)%nat -> v k = v i) ->
  let e := skip_equal eqb dflt fuel x i i_ahead i_max in
  (i_ahead <= e <= i_max)%nat /\
  (forall k, (i < k < e)%nat -> v k = v i) /\
  ((e < i_max)%nat -> v e <> v i).
Proof.
  revert i_ahead. induction fuel as [| fuel IH]; intros i_ahead Hi Hfuel Heq.
  - simpl. split; [lia |]. split; [exact Heq |]. intros Hlt. lia.
  - simpl. destruct (i_ahead <? i_max)%nat eqn:Hlt; simpl.
    + apply Nat.ltb_lt in Hlt.
      assert (Hin : (i_ahead < length x)%nat /\ (i < length x)%nat)
        by lia.
      destruct (eqb (nth i_ahead x dflt) (nth i x dflt)) eqn:He.
      * apply eqb_v in He; [| apply Hin | apply Hin].
        destruct (IH (S i_ahead)) as (H1 & H2 & H3); [lia | lia | |].
        { intros k Hk. destruct (Nat.eq_dec k i_ahead) as [-> | Hne];
            [exact He | apply Heq; lia]. }
        split; [lia |]. split; assumption.
      * split; [lia |]. split; [exact Heq |].
        intros _ Hv.
        apply eqb_v in Hv; [| apply Hin | apply Hin].
        congruence.
    + apply Nat.ltb_ge in Hlt.
      split; [lia |]. split; [exact Heq |]. intros Hlt'. lia.
Qed.

(** No run of equal samples starts strictly inside another, or right after
    it. *)
Lemma run_peak_unique (l r l' r' : nat) :
  run_peak v (length x) l r -> run_peak v (length x) l' r' ->
  (l <= l' <= r + 1)%nat -> l' = l /\ r' = r.
Proof.
  intros (H1 & H2 & H3 & H4 & H5) (H1' & H2' & H3' & H4' & H5') Hl.
  assert (Hll : l' = l).
  { destruct (Nat.eq_dec l' l) as [E | N]; [exact E | exfalso].
    destruct (Nat.eq_dec l' (r + 1)) as [E | N'].
    - subst l'. replace (r + 1 - 1)%nat with r in H4' by lia.
      rewrite (H3 r) in H4' by lia. lra.
    - rewrite (H3 (l' - 1)%nat), (H3 l') in H4' by lia. lra. }
  subst l'. split; [reflexivity |].
  destruct (Nat.lt_trichotomy r r') as [Hlt | [E | Hgt]];
    [| symmetry; exact E |];
    exfalso.
  - rewrite (H3' (r + 1)%nat) in H5 by lia. lra.
  - rewrite (H3 (r' + 1)%nat) in H5' by lia. lra.
Qed.

(** What the outer loop collects from index [i] on: exactly the runs that
    start at [i] or later. *)
Lemma local_maxima_loop_spec (fuel i : nat) :
  (1 <= i)%nat ->
  (i_max - i <= fuel)%nat ->
  forall m l r,
    In (m, l, r) (local_maxima_loop ltb eqb dflt fuel x i i_max) <->
    (i <= l)%nat /\ run_peak v (length x) l r /\ m = ((l + r) / 2)%nat.
Proof.
  revert i. induction fuel as [| fuel IH]; intros i Hi Hfuel m l r.
  - simpl. split; [tauto |].
    intros (Hl & (H1 & H2 & _) & _). lia.
  - simpl. destruct (i <? i_max)%nat eqn:Hlt.
    2:{ apply Nat.ltb_ge in Hlt. split; [simpl; tauto |].
        intros (Hl & (H1 & H2 & _) & _). lia. }
    apply Nat.ltb_lt in Hlt.
    assert (Hin : (i < length x)%nat) by (lia).
    destruct (ltb (nth (i - 1) x dflt) (nth i x dflt)) eqn:Hrise.
    2:{ rewrite IH by lia. split.
        - intros (Hl & Hrun & Hm). split; [lia |]. split; assumption.
        - intros (Hl & Hrun & Hm).
          split; [| split; assumption].
          destruct (Nat.eq_dec l i) as [E | N]; [| lia]. exfalso.
          subst l. destruct Hrun as (_ & _ & _ & H4 & _).
          apply ltb_v in H4; [congruence | lia | lia]. }
    apply ltb_v in Hrise; [| lia | lia].
    destruct (skip_equal_stops i_max i (i + 1)) as (He1 & He2 & He3);
      [lia | lia | intros k Hk; lia |].
    set (e := skip_equal eqb dflt i_max x i (i + 1) i_max) in *.
    assert (Hein : (e < length x)%nat) by (lia).
    destruct (ltb (nth e x dflt) (nth i x dflt)) eqn:Hfall.
    + apply ltb_v in Hfall; [| lia | lia].
      assert (Hrun : run_peak v (length x) i (e - 1)).
      { split; [lia |]. split; [lia |]. split; [| split].
        - intros k Hk. destruct (Nat.eq_dec k i) as [-> | N];
            [reflexivity | apply He2; lia].
        - exact Hrise.
        - replace (e - 1 + 1)%nat with e by lia. exact Hfall. }
      simpl. rewrite IH by lia. split.
      * intros [Heq | (Hl & Hrun' & Hm)].
        -- inversion Heq; subst. split; [lia |].
           split; [exact Hrun | reflexivity].
        -- split; [lia |]. split; assumption.
      * intros (Hl & Hrun' & Hm).
        destruct (Nat.le_gt_cases l e) as [Hle | Hgt].
        -- left.
           destruct (run_peak_unique i (e - 1) l r Hrun Hrun') as [-> ->];
             [lia |]. now subst m.
        -- right. split; [lia |]. split; assumption.
    + rewrite IH by lia. split.
      * intros (Hl & Hrun & Hm). split; [lia |]. split; assumption.
      * intros (Hl & Hrun & Hm).
        split; [| split; assumption].
        destruct (Nat.eq_dec l i) as [E | N]; [| lia]. exfalso.
        subst l. destruct Hrun as (H1 & H2 & H3 & H4 & H5).
        destruct (Nat.lt_trichotomy (r + 1) e) as [Hlt' | [E | Hgt]].
        -- rewrite (He2 (r + 1)%nat) in H5 by lia. lra.
        -- rewrite E in H5. apply ltb_v in H5; [congruence | lia | lia].
        -- apply He3; [lia | apply H3; lia].
Qed.

(** The midpoints come out in strictly ascending order. *)
Lemma local_maxima_loop_sorted (fuel i : nat) :
  (1 <= i)%nat ->
  (i_max - i <= fuel)%nat ->
  StronglySorted Nat.lt
    (map (fun m => fst (fst m))
       (local_maxima_loop ltb eqb dflt fuel x i i_max)).
Proof.
  revert i. induction fuel as [| fuel IH]; intros i Hi Hfuel.
  - simpl. constructor.
  - simpl. destruct (i <? i_max)%nat eqn:Hlt; [| constructor].
    apply Nat.ltb_lt in Hlt.
    destruct (ltb (nth (i - 1) x dflt) (nth i x dflt)); [| apply IH; lia].
    destruct (skip_equal_stops i_max i (i + 1)) as (He1 & _);
      [lia | lia | intros k Hk; lia |].
    set (e := skip_equal eqb dflt i_max x i (i + 1) i_max) in *.
    destruct (ltb (nth e x dflt) (nth i x dflt)); [| apply IH; lia].
    simpl. constructor; [apply IH; lia |].
    apply Forall_forall. intros m Hm.
    apply in_map_iff in Hm. destruct Hm as ([[m' l] r] & Hfst & Hm).
    simpl in Hfst. subst m'.
    apply local_maxima_loop_spec in Hm; [| lia | lia].
    destruct Hm as (Hl & (H1 & _) & ->).
    change (fst (Nat.divmod (i + (e - 1)) 1 0 1))
      with ((i + (e - 1)) / 2)%nat.
    pose proof (midpoint_bounds i (e - 1)). pose proof (midpoint_bounds l r).
    unfold Nat.lt. lia.
Qed.

(** [_local_maxima_1d] returns exactly the peaks of [x]. *)
Lemma local_maxima_1d_spec (i : nat) :
  In i (map (fun m => fst (fst m)) (local_maxima_1d ltb eqb dflt x)) <->
  flat_peak v (length x) i.
Proof.
  rewrite flat_peak_run, in_map_iff. unfold local_maxima_1d. split.
  - intros ([[m l] r] & Hfst & Hin). simpl in Hfst. subst m.
    apply local_maxima_loop_spec in Hin; [| lia | lia].
    exists l, r. tauto.
  - intros (l & r & Hrun & ->).
    exists (((l + r) / 2)%nat, l, r). split; [reflexivity |].
    apply local_maxima_loop_spec; [lia | lia |].
    split; [destruct Hrun as ((H1 & _) & _); exact H1 |].
    split; [exact Hrun | reflexivity].
Qed.

Lemma local_maxima_1d_sorted :
  StronglySorted Nat.lt
    (map (fun m => fst (fst m)) (local_maxima_1d ltb eqb dflt x)).
Proof.
  unfold local_maxima_1d.
  apply local_maxima_loop_sorted; [lia | lia].
Qed.

End LocalMaxima.

(** ** Selection by distance *)

Lemma sorted_nth_lt (l : list nat) :
  StronglySorted Nat.lt l ->
  forall i j, (i < j < length l)%nat -> (nth i l O < nth j l O)%nat.
Proof.
  induction 1 as [| y l Hs IH Hall]; intros i j Hij; simpl in *; [lia |].
  destruct j as [| j]; [lia |].
  destruct i as [| i].
  - rewrite Forall_forall in Hall. apply Hall, nth_In. lia.
  - apply IH. lia.
Qed.

Lemma sorted_nth_le (l : list nat) :
  StronglySorted Nat.lt l ->
  forall i j, (i <= j < length l)%nat -> (nth i l O <= nth j l O)%nat.
Proof.
  intros Hs i j Hij. destruct (Nat.eq_dec i j) as [-> | N]; [lia |].
  apply Nat.lt_le_incl, sorted_nth_lt; [exact Hs | lia].
Qed.

Lemma clear_flag_length (keep : list bool) (k : nat) :
  length (clear_flag keep k) = length keep.
Proof.
  revert k. induction keep as [| b keep IH]; intros [| k]; simpl;
    try reflexivity. now rewrite IH.
Qed.

Lemma clear_flag_nth_same (keep : list bool) (k : nat) :
  nth k (clear_flag keep k) false = false.
Proof.
  revert k. induction keep as [| b keep IH]; intros [| k]; simpl;
    try reflexivity. apply IH.
Qed.

Lemma clear_flag_nth_other (keep : list bool) (k q : nat) :
  q <> k -> nth q (clear_flag keep k) false = nth q keep false.
Proof.
  revert k q. induction keep as [| b keep IH]; intros [| k] [| q] Hne; simpl;
    try reflexivity; try contradiction.
  apply IH. lia.
Qed.

Section DistanceSelection.

Variable peaks : list nat.
Variable distance : Z.
Hypothesis peaks_sorted : StronglySorted Nat.lt peaks.

Local Abbreviation pk q := (nth q peaks O).
Local Abbreviation near := (close_peaks peaks distance).

Lemma near_sym (j q : nat) : near j q -> near q j.
Proof. unfold close_peaks. lia. Qed.

Lemma flag_earlier_length (j k1 : nat) (keep : list bool) :
  length (flag_earlier peaks distance j k1 keep) = length keep.
Proof.
  revert keep. induction k1 as [| k IH]; intros keep; simpl;
    [reflexivity |].
  destruct (_ <? _)%Z; [| reflexivity].
  now rewrite IH, clear_flag_length.
Qed.

Lemma flag_later_length (fuel j k : nat) (keep : list bool) :
  length (flag_later fuel peaks distance j k keep) = length keep.
Proof.
  revert k keep. induction fuel as [| fuel IH]; intros k keep; simpl;
    [reflexivity |].
  destruct (_ && _); [| reflexivity].
  now rewrite IH, clear_flag_length.
Qed.

(** The backward loop clears exactly the flags of the earlier peaks that
    are too close. *)
Lemma flag_earlier_nth (j k1 : nat) (keep : list bool) (q : nat) :
  (k1 <= j < length peaks)%nat ->
  nth q (flag_earlier peaks distance j k1 keep) false = true <->
  nth q keep false = true /\ ~ ((q < k1)%nat /\ near j q).
Proof.
  intros Hj. revert keep.
  induction k1 as [| k IH]; intros keep; simpl.
  - split; [intros H; split; [exact H | lia] | tauto].
  -       destruct (Z.of_nat (pk j) - Z.of_nat (pk k) <? distance)%Z eqn:Hd.
    + apply Z.ltb_lt in Hd.
      rewrite IH by lia.
      assert (Hle : (pk k <= pk j)%nat)
        by (apply sorted_nth_le; [exact peaks_sorted | lia]).
      destruct (Nat.eq_dec q k) as [-> | Hne];
        [rewrite clear_flag_nth_same
        | rewrite clear_flag_nth_other by exact Hne].
      * split; [intros [H _]; discriminate |].
        intros [_ H]. exfalso. apply H. split; [lia |]. unfold close_peaks. lia.
      * split; intros [H1 H2]; (split; [exact H1 |]); intros [H3 H4];
          apply H2; (split; [lia | exact H4]).
    + apply Z.ltb_ge in Hd.
      split; [| tauto]. intros H. split; [exact H |].
      intros [Hq Hn].
      assert (Hle : (pk q <= pk k)%nat)
        by (apply sorted_nth_le; [exact peaks_sorted | lia]).
      unfold close_peaks in Hn. lia.
Qed.

(** The forward loop clears exactly the flags of the later peaks that are
    too close. *)
Lemma flag_later_nth (fuel j k : nat) (keep : list bool) (q : nat) :
  (j < k)%nat ->
  (length peaks - k <= fuel)%nat ->
  (q < length peaks)%nat ->
  nth q (flag_later fuel peaks distance j k keep) false = true <->
  nth q keep false = true /\ ~ ((k <= q)%nat /\ near j q).
Proof.
  intros Hj Hfuel Hq. revert k keep Hj Hfuel.
  induction fuel as [| fuel IH]; intros k keep Hj Hfuel; simpl.
  - split; [intros H; split; [exact H | lia] | tauto].
  -       destruct (k <? length peaks)%nat eqn:Hk; simpl.
    2:{ apply Nat.ltb_ge in Hk.
        split; [intros H; split; [exact H | lia] | tauto]. }
    apply Nat.ltb_lt in Hk.
    destruct (Z.of_nat (pk k) - Z.of_nat (pk j) <? distance)%Z eqn:Hd.
    + apply Z.ltb_lt in Hd.
      rewrite IH by lia.
      assert (Hle : (pk j <= pk k)%nat)
        by (apply sorted_nth_le; [exact peaks_sorted | lia]).
      destruct (Nat.eq_dec q k) as [-> | Hne];
        [rewrite clear_flag_nth_same
        | rewrite clear_flag_nth_other by exact Hne].
      * split; [intros [H _]; discriminate |].
        intros [_ H]. exfalso. apply H. split; [lia |]. unfold close_peaks. lia.
      * split; intros [H1 H2]; (split; [exact H1 |]); intros [H3 H4];
          apply H2; (split; [lia | exact H4]).
    + apply Z.ltb_ge in Hd.
      split; [| tauto]. intros H. split; [exact H |].
      intros [Hkq Hn].
      assert (Hle : (pk k <= pk q)%nat)
        by (apply sorted_nth_le; [exact peaks_sorted | lia]).
      assert (Hle' : (pk j <= pk k)%nat)
        by (apply sorted_nth_le; [exact peaks_sorted | lia]).
      unfold close_peaks in Hn. lia.
Qed.

Lemma distance_step_length (keep : list bool) (j : nat) :
  length (distance_step peaks distance keep j) = length keep.
Proof.
  unfold distance_step. destruct (nth j keep false); [| reflexivity].
  now rewrite flag_later_length, flag_earlier_length.
Qed.

(** A kept peak clears its close neighbours and nothing else. *)
Lemma distance_step_kept (keep : list bool) (j q : nat) :
  (j < length peaks)%nat -> (q < length peaks)%nat ->
  nth j keep false = true ->
  nth q (distance_step peaks distance keep j) false = true <->
  nth q keep false = true /\ ~ (q <> j /\ near j q).
Proof.
  intros Hj Hq Hkeep. unfold distance_step. rewrite Hkeep.
  rewrite flag_later_nth by lia. rewrite flag_earlier_nth by lia.
  split.
  - intros [[H1 H2] H3]. split; [exact H1 |]. intros [Hne Hn].
    destruct (Nat.lt_ge_cases q j); [apply H2 | apply H3];
      (split; [lia | exact Hn]).
  - intros [H1 H2]. split; [split; [exact H1 |] |]; intros [H3 H4];
      apply H2; (split; [lia | exact H4]).
Qed.

Lemma selection_invariant_init :
  selection_invariant peaks distance [] (repeat true (length peaks)).
Proof.
  split; [apply repeat_length |]. split.
  - intros j q [].
  - intros q Hq Hfalse. exfalso.
    assert (Hin : In (nth q (repeat true (length peaks)) false)
                    (repeat true (length peaks)))
      by (apply nth_In; now rewrite repeat_length).
    apply repeat_spec in Hin. congruence.
Qed.

Lemma selection_invariant_step (visited : list nat) (keep : list bool)
  (j : nat) :
  selection_invariant peaks distance visited keep ->
  selection_invariant peaks distance (j :: visited)
    (distance_step peaks distance keep j).
Proof.
  intros (Hlen & Hclear & Hcover).
  destruct (nth j keep false) eqn:Hkeep.
  2:{ unfold distance_step. rewrite Hkeep.
      split; [exact Hlen |]. split.
      - intros j' q [<- | Hin] Hk; [congruence | now apply Hclear].
      - intros q Hq Hfalse.
        destruct (Hcover q Hq Hfalse) as (j' & Hin & Hrest).
        exists j'. split; [now right | exact Hrest]. }
  assert (Hj : (j < length peaks)%nat).
  { rewrite <- Hlen. destruct (Nat.lt_ge_cases j (length keep)) as [H | H];
      [exact H |]. rewrite nth_overflow in Hkeep by exact H. discriminate. }
  split; [now rewrite distance_step_length |]. split.
  - intros j' q Hin Hk Hq Hne Hn.
    apply not_true_is_false. intros Hq'.
    apply distance_step_kept in Hq'; [| assumption ..].
    destruct Hq' as [Hq1 Hq2].
    destruct Hin as [<- | Hin].
    + apply Hq2. split; assumption.
    + assert (Hj' : (j' < length peaks)%nat).
      { rewrite <- (distance_step_length keep j), <- Hlen in *.
        destruct (Nat.lt_ge_cases j'
                    (length (distance_step peaks distance keep j)))
          as [H | H]; [exact H |].
        rewrite nth_overflow in Hk by exact H. discriminate. }
      apply distance_step_kept in Hk; [| assumption ..].
      destruct Hk as [Hk1 _].
      rewrite (Hclear j' q Hin Hk1 Hq Hne Hn) in Hq1. discriminate.
  - intros q Hq Hfalse.
    destruct (nth q keep false) eqn:Hqk.
    + exists j. split; [now left |]. split; [exact Hj |].
      split.
      * apply distance_step_kept; [assumption .. |].
        split; [exact Hkeep |]. intros [H _]. now apply H.
      * destruct (Nat.eq_dec q j) as [-> | Hne].
        -- exfalso.
           assert (Hj1 : nth j (distance_step peaks distance keep j) false
                         = true).
           { apply distance_step_kept; [assumption .. |].
             split; [exact Hkeep |]. intros [H _]. now apply H. }
           congruence.
        -- split; [exact Hne |].
           destruct (Z_lt_ge_dec
                       (Z.abs (Z.of_nat (pk j) - Z.of_nat (pk q))) distance)
             as [Hn | Hn]; [exact Hn |]. exfalso.
           assert (Hq1 : nth q (distance_step peaks distance keep j) false
                         = true).
           { apply distance_step_kept; [assumption .. |].
             split; [exact Hqk |]. intros [_ H]. unfold close_peaks in H. lia. }
           congruence.
    + destruct (Hcover q Hq Hqk) as (j' & Hin & Hj' & Hk & Hne & Hn).
      exists j'. split; [now right |]. split; [exact Hj' |].
      split; [| split; assumption].
      apply distance_step_kept; [assumption .. |].
      split; [exact Hk |]. intros [Hne' Hn'].
      assert (Hcl : nth j keep false = false).
      { apply (Hclear j' j Hin Hk Hj); [congruence | now apply near_sym]. }
      congruence.
Qed.

Lemma selection_invariant_fold (order visited : list nat)
  (keep : list bool) :
  selection_invariant peaks distance visited keep ->
  selection_invariant peaks distance (rev order ++ visited)
    (fold_left (distance_step peaks distance) order keep).
Proof.
  revert visited keep.
  induction order as [| j order IH]; intros visited keep Hinv; simpl;
    [exact Hinv |].
  rewrite <- app_assoc. simpl.
  apply IH, selection_invariant_step, Hinv.
Qed.

(** The values selected by the flags. *)
Lemma take_flagged_In (ps : list nat) (keep : list bool) (i : nat) :
  length keep = length ps ->
  In i (take_flagged ps keep) <->
  exists q, (q < length ps)%nat /\ nth q ps O = i /\
            nth q keep false = true.
Proof.
  revert keep. induction ps as [| p ps IH]; intros [| b keep] Hlen;
    simpl in *; try discriminate.
  - split; [tauto | intros (q & Hq & _); lia].
  - injection Hlen as Hlen. specialize (IH keep Hlen).
    destruct b; simpl; rewrite ?IH; split.
    + intros [<- | (q & Hq & Hn & Hk)].
      * exists O. repeat split; lia.
      * exists (S q). repeat split; [lia | exact Hn | exact Hk].
    + intros ([| q] & Hq & Hn & Hk); [now left | right].
      exists q. repeat split; [lia | exact Hn | exact Hk].
    + intros (q & Hq & Hn & Hk).
      exists (S q). repeat split; [lia | exact Hn | exact Hk].
    + intros ([| q] & Hq & Hn & Hk); [discriminate |].
      exists q. repeat split; [lia | exact Hn | exact Hk].
Qed.

Lemma take_flagged_sorted (ps : list nat) (keep : list bool) :
  StronglySorted Nat.lt ps -> StronglySorted Nat.lt (take_flagged ps keep).
Proof.
  intros Hs. revert keep.
  induction Hs as [| p ps Hs IH Hall]; intros [| b keep]; simpl;
    try constructor.
  destruct b; [| apply IH].
  constructor; [apply IH |].
  rewrite Forall_forall in *. intros i Hi. apply Hall.
  clear - Hi. revert keep Hi.
  induction ps as [| p' ps IH']; intros [| b keep] Hi; simpl in *;
    try contradiction.
  destruct b; [destruct Hi as [<- | Hi]; [now left | right] | right];
    eapply IH'; eassumption.
Qed.

(** What the whole selection keeps, for any visiting order that reaches
    every position. *)
Lemma select_by_distance_spec (order : list nat) (i : nat) :
  (forall q, (q < length peaks)%nat -> In q order) ->
  let keep := fold_left (distance_step peaks distance) (rev order)
                (repeat true (length peaks)) in
  In i (take_flagged peaks keep) <->
  In i peaks /\
  forall j, In j (take_flagged peaks keep) -> j <> i ->
    (distance <= Z.abs (Z.of_nat i - Z.of_nat j))%Z.
Proof.
  intros Hall keep.
  pose proof (selection_invariant_fold (rev order) [] _
                selection_invariant_init) as (Hlen & Hclear & Hcover).
  rewrite rev_involutive, app_nil_r in *. fold keep in Hlen, Hclear, Hcover.
  rewrite take_flagged_In by exact Hlen. split.
  - intros (q & Hq & Hn & Hk). split; [subst i; now apply nth_In |].
    intros j Hj Hne.
    apply take_flagged_In in Hj; [| exact Hlen].
    destruct Hj as (q' & Hq' & Hn' & Hk').
    destruct (Z_lt_ge_dec (Z.abs (Z.of_nat i - Z.of_nat j)) distance)
      as [Hclose | Hfar]; [exfalso | lia].
    assert (Hqq : q' <> q) by (intros ->; congruence).
    assert (Hnear : near q q') by (unfold close_peaks; rewrite Hn, Hn'; lia).
    rewrite (Hclear q q' (Hall q Hq) Hk Hq' Hqq Hnear) in Hk'.
    discriminate.
  - intros [Hin Hsep].
    apply In_nth with (d := O) in Hin. destruct Hin as (q & Hq & Hn).
    exists q. split; [exact Hq |]. split; [exact Hn |].
    destruct (nth q keep false) eqn:Hk; [reflexivity | exfalso].
    destruct (Hcover q Hq Hk) as (j & _ & Hj & Hkj & Hne & Hnear).
    assert (Hjin : In (pk j) (take_flagged peaks keep)).
    { apply take_flagged_In; [exact Hlen |]. exists j. now repeat split. }
    assert (Hpk : pk j <> i).
    { rewrite <- Hn.
      destruct (Nat.lt_gt_cases j q) as [Hcase _].
      destruct (Hcase (not_eq_sym Hne)) as [H | H];
        [pose proof (sorted_nth_lt peaks peaks_sorted j q)
        | pose proof (sorted_nth_lt peaks peaks_sorted q j)]; lia. }
    specialize (Hsep (pk j) Hjin Hpk).
    unfold close_peaks in Hnear. rewrite Hn in Hnear. lia.
Qed.

End DistanceSelection.

(** ** [find_peaks] as a whole *)

Lemma filter_sorted (f : nat -> bool) (l : list nat) :
  StronglySorted Nat.lt l -> StronglySorted Nat.lt (filter f l).
Proof.
  induction 1 as [| y l Hs IH Hall]; simpl; [constructor |].
  destruct (f y); [| exact IH].
  constructor; [exact IH |].
  rewrite Forall_forall in *. intros z Hz.
  apply filter_In in Hz. now apply Hall.
Qed.

Lemma flat_peak_in_range (v : nat -> R) (n i : nat) :
  flat_peak v n i -> (i < n)%nat.
Proof.
  intros (l & r & H1 & H2 & -> & _).
  pose proof (midpoint_bounds l r). lia.
Qed.

Section FindPeaksSpec.

Context {A : Type}.
Variables (ltb eqb leb : A -> A -> bool).
Variable argsort : list A -> list nat.
Variable dflt : A.
Variable x : list A.
Variable height : A.
Variable distance : Z.

(** The numbers held by [x] and by [height]. *)
Variable v : nat -> R.
Variable h : R.

Hypothesis ltb_v : forall i j, (i < length x)%nat -> (j < length x)%nat ->
  (ltb (nth i x dflt) (nth j x dflt) = true <-> v i < v j).
Hypothesis eqb_v : forall i j, (i < length x)%nat -> (j < length x)%nat ->
  (eqb (nth i x dflt) (nth j x dflt) = true <-> v i = v j).
Hypothesis leb_v : forall i, (i < length x)%nat ->
  (leb height (nth i x dflt) = true <-> h <= v i).

(** [np.argsort] returns every position once. *)
Hypothesis argsort_permutation : forall priority,
  Permutation (argsort priority) (seq 0 (length priority)).

Lemma candidates_spec (i : nat) :
  In i (select_by_height leb dflt x height
          (map (fun m => fst (fst m)) (local_maxima_1d ltb eqb dflt x))) <->
  flat_peak v (length x) i /\ h <= v i.
Proof.
  unfold select_by_height. rewrite filter_In.
  rewrite (local_maxima_1d_spec ltb eqb dflt x v ltb_v eqb_v).
  split; intros [Hp Hh]; (split; [exact Hp |]);
    apply leb_v; try assumption; eapply flat_peak_in_range; eassumption.
Qed.

Lemma candidates_sorted :
  StronglySorted Nat.lt
    (select_by_height leb dflt x height
       (map (fun m => fst (fst m)) (local_maxima_1d ltb eqb dflt x))).
Proof.
  apply filter_sorted.
  apply (local_maxima_1d_sorted ltb eqb dflt x v ltb_v eqb_v).
Qed.

(** [find_peaks] returns, in ascending order, exactly the peaks of [x] that
    reach [height] and lie at least [distance] from every other returned
    index. *)
Lemma find_peaks_spec :
  let found := find_peaks ltb eqb leb argsort dflt x height distance in
  (forall i, In i found <->
     flat_peak v (length x) i /\ h <= v i /\ separated distance found i) /\
  StronglySorted Nat.lt found.
Proof.
  unfold find_peaks, select_by_peak_distance.
  set (peaks := select_by_height leb dflt x height
                  (map (fun m => fst (fst m))
                     (local_maxima_1d ltb eqb dflt x))).
  set (order := argsort (map (fun pk => nth pk x dflt) peaks)).
  assert (Hall : forall q, (q < length peaks)%nat -> In q order).
  { intros q Hq. unfold order.
    eapply Permutation_in;
      [apply Permutation_sym, argsort_permutation |].
    rewrite length_map. apply in_seq. lia. }
  split.
  - intros i.
    rewrite (select_by_distance_spec peaks distance candidates_sorted
               order i Hall).
    unfold peaks at 1. rewrite candidates_spec.
    unfold separated. tauto.
  - apply take_flagged_sorted, candidates_sorted.
Qed.

End FindPeaksSpec.

(** ** Depth on the dB scale *)

Lemma ln_10_pos : 0 < ln 10.
Proof. rewrite <- ln_1. apply ln_increasing; lra. Qed.

(** Deeper means lower: the depth is strictly antitone in the transmission. *)
Lemma depth_dB_lt (s t : R) :
  0 <= s -> 0 <= t -> (depth_dB s < depth_dB t <-> t < s).
Proof.
  intros Hs Ht. unfold depth_dB, Rdiv.
  pose proof ln_10_pos as H10.
  assert (Hk : 0 < / ln 10) by now apply Rinv_0_lt_compat.
  set (k := / ln 10) in *.
  split.
  - intros H.
    assert (Hln : ln (t + 1e-10) < ln (s + 1e-10)) by nra.
    apply ln_lt_inv in Hln; lra.
  - intros H.
    assert (Hln : ln (t + 1e-10) < ln (s + 1e-10))
      by (apply ln_increasing; lra).
    nra.
Qed.

Lemma depth_dB_eq (s t : R) :
  0 <= s -> 0 <= t -> (depth_dB s = depth_dB t <-> s = t).
Proof.
  intros Hs Ht. split; [| now intros ->].
  intros H.
  destruct (Rtotal_order s t) as [Hlt | [Heq | Hgt]]; [| exact Heq |].
  - apply (depth_dB_lt t s Ht Hs) in Hlt. lra.
  - apply (depth_dB_lt s t Hs Ht) in Hgt. lra.
Qed.

(** A depth of 5 dB is a transmission of at most [10^(-1/2)], up to the
    offset. *)
Lemma depth_at_least_5 (t : R) :
  0 <= t -> (5 <= depth_dB t <-> 10 * (t + 1e-10) ^ 2 <= 1).
Proof.
  intros Ht. unfold depth_dB.
  set (u := t + 1e-10). assert (Hu : 0 < u) by (unfold u; lra).
  unfold Rdiv.
  pose proof ln_10_pos as H10.
  assert (Hk : 0 < / ln 10) by now apply Rinv_0_lt_compat.
  assert (Hkk : ln 10 * / ln 10 = 1) by (apply Rinv_r; lra).
  assert (Hsq : ln (10 * u ^ 2) = ln 10 + 2 * ln u).
  { rewrite ln_mult by nra.
    replace (u ^ 2) with (u * u) by ring.
    rewrite ln_mult by assumption. ring. }
  assert (Hw : ln u = ln u * / ln 10 * ln 10)
    by (rewrite Rmult_assoc, (Rmult_comm (/ ln 10)), Hkk; ring).
  set (w := ln u * / ln 10) in *.
  split.
  - intros H.
    assert (Hle : ln (10 * u ^ 2) <= ln 1).
    { rewrite Hsq, ln_1, Hw. nra. }
    destruct (Rle_lt_dec (10 * u ^ 2) 1) as [Hok | Hbad]; [exact Hok |].
    apply ln_increasing in Hbad; lra.
  - intros H.
    assert (Hle : ln (10 * u ^ 2) <= ln 1).
    { destruct H as [H | H]; [left; apply ln_increasing; nra | right].
      now rewrite H. }
    rewrite Hsq, ln_1, Hw in Hle. nra.
Qed.

(** ** The arrays handed to [find_peaks] *)

Lemma in_unit_interval_nth (transmission : list npval) (i : nat) :
  Forall in_unit_interval transmission ->
  (i < length transmission)%nat ->
  nth i transmission NaN = Finite (np_value (nth i transmission NaN)) /\
  0 <= np_value (nth i transmission NaN) <= 1.
Proof.
  intros Hall Hi. rewrite Forall_forall in Hall.
  destruct (Hall (nth i transmission NaN)) as (t & Ht & Hrange);
    [now apply nth_In |].
  rewrite Ht. simpl. split; [reflexivity | exact Hrange].
Qed.

Lemma negated_dB_nth (transmission : list npval) (i : nat) :
  Forall in_unit_interval transmission ->
  (i < length transmission)%nat ->
  nth i (map np_negative (transmission_dB transmission)) NaN
  = Finite (depth_dB (np_value (nth i transmission NaN))).
Proof.
  intros Hall Hi. unfold transmission_dB. rewrite map_map.
  change NaN with (np_negative (dB NaN)) at 1.
  rewrite (map_nth (fun t => np_negative (dB t))).
  destruct (in_unit_interval_nth transmission i Hall Hi) as [Heq Hrange].
  rewrite Heq at 1. rewrite dB_finite by lra. reflexivity.
Qed.

Lemma np_ltb_finite (u w : R) : np_ltb (Finite u) (Finite w) = true <-> u < w.
Proof.
  simpl. destruct (Rlt_dec u w); split; intros H;
    try reflexivity; try assumption; try discriminate; contradiction.
Qed.

Lemma np_eqb_finite (u w : R) : np_eqb (Finite u) (Finite w) = true <-> u = w.
Proof.
  simpl. destruct (Req_dec_T u w); split; intros H;
    try reflexivity; try assumption; try discriminate; contradiction.
Qed.

Lemma np_leb_finite (u w : R) : np_leb (Finite u) (Finite w) = true <-> u <= w.
Proof.
  unfold np_leb. rewrite orb_true_iff, np_ltb_finite, np_eqb_finite.
  unfold Rle. tauto.
Qed.

(** On transmissions in [0,1] a peak of the depth is a dip of the
    transmission. *)
Lemma flat_peak_depth (T : nat -> R) (n i : nat) :
  (forall k, (k < n)%nat -> 0 <= T k) ->
  (flat_peak (fun k => depth_dB (T k)) n i <-> flat_dip T n i).
Proof.
  intros Hpos. unfold flat_peak, flat_dip.
  split; intros (l & r & H1 & H2 & H3 & H4 & H5 & H6); exists l, r;
    (split; [exact H1 |]); (split; [exact H2 |]); (split; [exact H3 |]).
  - split; [| split].
    + intros k Hk.
      refine (proj1 (depth_dB_eq _ _ _ _) (H4 k Hk)); apply Hpos; lia.
    + refine (proj1 (depth_dB_lt _ _ _ _) H5); apply Hpos; lia.
    + refine (proj1 (depth_dB_lt _ _ _ _) H6); apply Hpos; lia.
  - split; [| split].
    + intros k Hk. now rewrite (H4 k Hk).
    + refine (proj2 (depth_dB_lt _ _ _ _) H5); apply Hpos; lia.
    + refine (proj2 (depth_dB_lt _ _ _ _) H6); apply Hpos; lia.
Qed.

Lemma flat_dip_in_range (T : nat -> R) (n i : nat) :
  flat_dip T n i -> (i < n)%nat.
Proof.
  intros (l & r & H1 & H2 & -> & _).
  pose proof (midpoint_bounds l r). lia.
Qed.

(** ** Resonance detection *)

(** The indices found on a sampled spectrum: the flat dips of the
    transmission that are at least 5 dB deep and at least 20 samples from
    every other index found, in ascending order. *)
Lemma resonance_indices_spec (argsort : list npval -> list nat)
  (transmission : list npval) :
  (forall priority, Permutation (argsort priority) (seq 0 (length priority))) ->
  Forall in_unit_interval transmission ->
  let found := resonance_indices argsort transmission in
  (forall i, In i found <->
     resonance_condition flat_dip transmission found i) /\
  StronglySorted Nat.lt found.
Proof.
  intros Hperm Hall.
  set (T := fun k => np_value (nth k transmission NaN)).
  set (x := map np_negative (transmission_dB transmission)).
  assert (Hlen : length x = length transmission).
  { unfold x, transmission_dB. now rewrite !length_map. }
  assert (Hnth : forall i, (i < length x)%nat ->
                   nth i x NaN = Finite (depth_dB (T i))).
  { intros i Hi. apply negated_dB_nth; [exact Hall | now rewrite <- Hlen]. }
  pose proof (find_peaks_spec np_ltb np_eqb np_leb argsort NaN x (Finite 5) 20
                (fun k => depth_dB (T k)) 5) as Hspec.
  destruct Hspec as [Hin Hsorted].
  - intros i j Hi Hj. rewrite (Hnth i Hi), (Hnth j Hj). apply np_ltb_finite.
  - intros i j Hi Hj. rewrite (Hnth i Hi), (Hnth j Hj). apply np_eqb_finite.
  - intros i Hi. rewrite (Hnth i Hi). apply np_leb_finite.
  - exact Hperm.
  - split; [| exact Hsorted].
    intros i. unfold resonance_indices, peaks_idx. fold x.
    rewrite Hin. unfold resonance_condition. fold T.
    rewrite Hlen.
    rewrite (flat_peak_depth T (length transmission) i); [tauto |].
    intros k Hk. apply (in_unit_interval_nth transmission k Hall Hk).
Qed.

Lemma insert_position_permutation {A : Type} (ltb : A -> A -> bool) (dflt : A)
  (priority : list A) (j : nat) (sorted : list nat) :
  Permutation (insert_position ltb dflt priority j sorted) (j :: sorted).
Proof.
  induction sorted as [| k rest IH]; simpl; [reflexivity |].
  destruct (ltb _ _); [| reflexivity].
  rewrite IH. apply perm_swap.
Qed.

(** The stable order is one of the orders allowed for [np.argsort]. *)
Lemma stable_argsort_permutation {A : Type} (ltb : A -> A -> bool) (dflt : A)
  (priority : list A) :
  Permutation (stable_argsort ltb dflt priority) (seq 0 (length priority)).
Proof.
  unfold stable_argsort.
  induction (seq 0 (length priority)) as [| j s IH]; simpl; [reflexivity |].
  rewrite insert_position_permutation. now apply perm_skip.
Qed.

Lemma sorted_nth_Rlt (ws : list R) :
  StronglySorted Rlt ws ->
  forall i j, (i < j < length ws)%nat -> nth i ws 0 < nth j ws 0.
Proof.
  induction 1 as [| y l Hs IH Hall]; intros i j Hij; simpl in *; [lia |].
  destruct j as [| j]; [lia |].
  destruct i as [| i].
  - rewrite Forall_forall in Hall. apply Hall, nth_In. lia.
  - apply IH. lia.
Qed.

(** Ascending indices into ascending wavelengths give ascending
    wavelengths. *)
Lemma resonance_wavelengths_sorted (wavelengths : list R) (idx : list nat) :
  StronglySorted Rlt wavelengths ->
  StronglySorted Nat.lt idx ->
  Forall (fun i => (i < length wavelengths)%nat) idx ->
  StronglySorted Rlt (resonance_wavelengths wavelengths idx).
Proof.
  intros Hws Hidx. unfold resonance_wavelengths.
  induction Hidx as [| i idx Hs IH Hall]; intros Hrange; simpl;
    constructor.
  - apply IH. now inversion Hrange.
  - inversion Hrange as [| ? ? Hi Hrest]; subst.
    rewrite Forall_forall in *. intros w Hw.
    apply in_map_iff in Hw. destruct Hw as (j & <- & Hj).
    apply sorted_nth_Rlt; [exact Hws |].
    specialize (Hall j Hj). specialize (Hrest j Hj). unfold Nat.lt in Hall.
    lia.
Qed.

(** ** Two sampled spectra with equal neighbouring samples *)

Lemma cos_4PI3 : cos (PI / 3 + PI) = - (1 / 2).
Proof. now rewrite neg_cos, cos_PI3. Qed.

Lemma cos_3PI : cos (PI + 2 * PI) = -1.
Proof. rewrite cos_plus, cos_2PI, sin_2PI, cos_PI. ring. Qed.

Lemma half_valid (n l c : R) : valid_coefficients (mkParams n l 0.5 0.5 c).
Proof. unfold valid_coefficients; simpl; lra. Qed.

Lemma transmission_function_at (p : ResonatorParameters)
  (wavelength c t : R) :
  valid_coefficients p ->
  wavelength <> 0 ->
  cos (2 * PI * n_eff p * L p / wavelength) = c ->
  t * (1 - 2 * a p * r p * c + (a p * r p) ^ 2)
  = (a p) ^ 2 - 2 * a p * r p * c + (r p) ^ 2 ->
  transmission_function p wavelength = Finite t.
Proof.
  intros Hv Hw Hc Ht.
  rewrite transmission_function_phase by exact Hw.
  rewrite transmission_of_phase_valid by exact Hv.
  pose proof (denominator_pos p (2 * PI * n_eff p * L p / wavelength) Hv)
    as Hd.
  f_equal. unfold numerator, denominator in *. rewrite Hc in *.
  rewrite <- Ht. field. lra.
Qed.

(** Rewrite the argument of the cosine in the goal. *)
Ltac cos_at Y :=
  match goal with
  | |- cos ?X = _ => replace X with Y by (simpl; lra)
  end.

(** Wavelengths 3, 4, 5, 6 with [n_eff * L = 20]: the phases are
    [40*pi/3], [10*pi], [8*pi] and [20*pi/3]. *)
Lemma flat_sample_values :
  flat_sample = [Finite (4 / 7); Finite 0; Finite 0; Finite (4 / 7)].
Proof.
  unfold flat_sample, linspace. cbn [seq map Nat.sub].
  pose proof (half_valid 20 1 1) as Hv.
  repeat f_equal.
  - apply transmission_function_at with (c := - (1 / 2));
      [exact Hv | simpl; lra | | simpl; lra].
    cos_at (PI / 3 + PI + 2 * INR 6 * PI).
    rewrite cos_period. apply cos_4PI3.
  - apply transmission_function_at with (c := 1);
      [exact Hv | simpl; lra | | simpl; lra].
    cos_at (2 * PI * IZR 5). apply cos_resonance.
  - apply transmission_function_at with (c := 1);
      [exact Hv | simpl; lra | | simpl; lra].
    cos_at (2 * PI * IZR 4). apply cos_resonance.
  - apply transmission_function_at with (c := - (1 / 2));
      [exact Hv | simpl; lra | | simpl; lra].
    cos_at (- (PI / 3 + PI) + 2 * INR 4 * PI).
    rewrite cos_period, cos_neg. apply cos_4PI3.
Qed.

(** Wavelengths 1, 2, 3, 4 with [n_eff * L = 6]: the phases are [12*pi],
    [6*pi], [4*pi] and [3*pi]. *)
Lemma shelf_sample_values :
  shelf_sample = [Finite 0; Finite 0; Finite 0; Finite (16 / 25)].
Proof.
  unfold shelf_sample, linspace. cbn [seq map Nat.sub].
  pose proof (half_valid 6 1 1) as Hv.
  repeat f_equal.
  - apply transmission_function_at with (c := 1);
      [exact Hv | simpl; lra | | simpl; lra].
    cos_at (2 * PI * IZR 6). apply cos_resonance.
  - apply transmission_function_at with (c := 1);
      [exact Hv | simpl; lra | | simpl; lra].
    cos_at (2 * PI * IZR 3). apply cos_resonance.
  - apply transmission_function_at with (c := 1);
      [exact Hv | simpl; lra | | simpl; lra].
    cos_at (2 * PI * IZR 2). apply cos_resonance.
  - apply transmission_function_at with (c := -1);
      [exact Hv | simpl; lra | | simpl; lra].
    cos_at (PI + 2 * PI). apply cos_3PI.
Qed.

Lemma depth_of_zero : 5 <= depth_dB 0.
Proof. apply depth_at_least_5; [lra | nra]. Qed.

Lemma four_in_unit_interval (t0 t1 t2 t3 : R) :
  0 <= t0 <= 1 -> 0 <= t1 <= 1 -> 0 <= t2 <= 1 -> 0 <= t3 <= 1 ->
  Forall in_unit_interval [Finite t0; Finite t1; Finite t2; Finite t3].
Proof.
  intros H0 H1 H2 H3.
  repeat constructor; eexists; (split; [reflexivity | assumption]).
Qed.

(** The runs of a four-sample spectrum start and end at index 1 or 2. *)
Lemma four_sample_runs (T : nat -> R) (i : nat) :
  flat_dip T 4 i ->
  (i = 1%nat /\ T 1%nat < T 0%nat /\ T 1%nat < T 2%nat) \/
  (i = 1%nat /\ T 2%nat = T 1%nat /\ T 1%nat < T 0%nat /\ T 1%nat < T 3%nat) \/
  (i = 2%nat /\ T 2%nat < T 1%nat /\ T 2%nat < T 3%nat).
Proof.
  intros (l & r & H1 & H2 & H3 & H4 & H5 & H6).
  assert (Hl : l = 1%nat \/ l = 2%nat) by lia.
  assert (Hr : r = 1%nat \/ r = 2%nat) by lia.
  destruct Hl as [-> | ->], Hr as [-> | ->]; simpl in H3, H5, H6.
  - left. auto.
  - right; left. split; [exact H3 |]. split; [apply H4; lia | auto].
  - lia.
  - right; right. auto.
Qed.

(** C5 as stated fails on two sampled spectra.  On [flat_sample], with
    transmissions 4/7, 0, 0, 4/7, index 1 is returned although sample 1 is
    not lower than sample 2.  On [shelf_sample], with transmissions 0, 0, 0,
    16/25, sample 1 is not higher than its neighbours, is 100 dB deep and
    nothing is returned near it, yet it is not returned. *)
Lemma resonance_detection_not_plain_minima :
  ~ (forall i,
       In i (resonance_indices (stable_argsort np_ltb NaN) flat_sample) <->
       resonance_condition strict_local_min flat_sample
         (resonance_indices (stable_argsort np_ltb NaN) flat_sample) i) /\
  ~ (forall i,
       In i (resonance_indices (stable_argsort np_ltb NaN) shelf_sample) <->
       resonance_condition weak_local_min shelf_sample
         (resonance_indices (stable_argsort np_ltb NaN) shelf_sample) i).
Proof.
  split.
  - rewrite flat_sample_values.
    set (sample := [Finite (4 / 7); Finite 0; Finite 0; Finite (4 / 7)]).
    destruct (resonance_indices_spec (stable_argsort np_ltb NaN) sample)
      as [Hin _].
    { intros priority. apply stable_argsort_permutation. }
    { apply four_in_unit_interval; lra. }
    set (found := resonance_indices (stable_argsort np_ltb NaN) sample) in *.
    intros Hclaim.
    assert (Hfound : In 1%nat found).
    { apply Hin. split; [| split].
      - exists 1%nat, 2%nat.
        split; [lia |]. split; [simpl; lia |]. split; [reflexivity |].
        split; [| simpl; lra].
        intros k Hk. assert (Hcase : k = 1%nat \/ k = 2%nat) by lia.
        destruct Hcase as [-> | ->]; reflexivity.
      - simpl. apply depth_of_zero.
      - intros j Hj Hne. apply Hin in Hj. destruct Hj as [Hdip _].
        apply four_sample_runs in Hdip. simpl in Hdip.
        destruct Hdip as [(? & ? & ?) | [(? & ?) | (? & ? & ?)]];
          [lra | contradiction | lra]. }
    apply Hclaim in Hfound.
    destruct Hfound as [(_ & _ & _ & Hlower) _]. simpl in Hlower. lra.
  - rewrite shelf_sample_values.
    set (sample := [Finite 0; Finite 0; Finite 0; Finite (16 / 25)]).
    destruct (resonance_indices_spec (stable_argsort np_ltb NaN) sample)
      as [Hin _].
    { intros priority. apply stable_argsort_permutation. }
    { apply four_in_unit_interval; lra. }
    set (found := resonance_indices (stable_argsort np_ltb NaN) sample) in *.
    assert (Hnone : forall j, ~ In j found).
    { intros j Hj. apply Hin in Hj. destruct Hj as [Hdip _].
      apply four_sample_runs in Hdip. simpl in Hdip.
      destruct Hdip as [(? & ? & ?) | [(? & ? & ? & ?) | (? & ? & ?)]]; lra. }
    intros Hclaim. apply (Hnone 1%nat), Hclaim.
    split; [| split].
    + unfold weak_local_min. simpl. repeat split; try lia; lra.
    + simpl. apply depth_of_zero.
    + intros j Hj. now apply Hnone in Hj.
Qed.

(** * Further properties of the transmission model *)

(** ** Symmetries *)

Lemma transmission_of_phase_terms (p q : ResonatorParameters) (phi phi' : R) :
  numerator q phi' = numerator p phi ->
  denominator q phi' = denominator p phi ->
  transmission_of_phase q phi' = transmission_of_phase p phi.
Proof. intros Hn Hd. unfold transmission_of_phase. now rewrite Hn, Hd. Qed.

(** X2: the transmission function is even in the wavelength: a negative
    wavelength gives the result of its absolute value, and no error. *)
Theorem transmission_even (p : ResonatorParameters) (wavelength : R) :
  transmission_function p (- wavelength) = transmission_function p wavelength.
Proof.
  destruct (Req_dec_T wavelength 0) as [-> | Hw].
  - now rewrite Ropp_0.
  - rewrite !transmission_function_phase by lra.
    replace (2 * PI * n_eff p * L p / - wavelength)
      with (- (2 * PI * n_eff p * L p / wavelength)) by (field; exact Hw).
    apply transmission_of_phase_terms.
    + unfold numerator. now rewrite cos_neg.
    + unfold denominator. now rewrite cos_neg.
Qed.

(** * Further properties of the spectrum code *)

(** ** Indexing *)

Lemma index_in_range {A : Type} (l : list A) (i : nat) (d : A) :
  (i < length l)%nat -> index l i = Returned (nth i l d).
Proof.
  intros Hi. unfold index. now rewrite (nth_error_nth' l d Hi).
Qed.

Lemma index_not_name_error {A : Type} (l : list A) (i : nat) :
  index l i <> NameError.
Proof. unfold index. destruct (nth_error l i); discriminate. Qed.

Lemma bind_not_name_error {A B : Type} (m : outcome A) (k : A -> outcome B) :
  m <> NameError -> (forall x, k x <> NameError) -> bind m k <> NameError.
Proof.
  intros Hm Hk. destruct m; simpl; [apply Hk | discriminate | now elim Hm].
Qed.

Lemma fsr_wavelength_not_name_error (lambda_nm : list R)
  (peaks_idx : list nat) :
  fsr_wavelength lambda_nm peaks_idx <> NameError.
Proof.
  unfold fsr_wavelength.
  repeat (apply bind_not_name_error; [apply index_not_name_error | intros ?]).
  discriminate.
Qed.

Lemma arrow_ends_not_name_error (lambda_nm : list R) (peaks_idx : list nat) :
  arrow_ends lambda_nm peaks_idx <> NameError.
Proof.
  unfold arrow_ends.
  repeat (apply bind_not_name_error; [apply index_not_name_error | intros ?]).
  discriminate.
Qed.

(** ** The marker loop *)

(** The loop raises no [NameError], and it sets the FSR text only when there
    are two resonances or more. *)
Lemma mark_resonances_text (lambda_nm : list R) (transmission_dB : list npval)
  (peaks_idx : list nat) (i : nat) (todo : list nat)
  (markers : list (R * npval)) (text : option R) :
  match mark_resonances lambda_nm transmission_dB peaks_idx i todo markers
          text with
  | Returned (_, Some _) => text <> None \/ (1 < length peaks_idx)%nat
  | Returned (_, None) => True
  | IndexError => True
  | NameError => False
  end.
Proof.
  revert i markers text.
  induction todo as [| idx rest IH]; intros i markers text; simpl.
  - destruct text; [left; discriminate | exact I].
  - destruct (index lambda_nm idx) as [wavelength | |] eqn:Hw; simpl;
      [| exact I | now apply index_not_name_error in Hw].
    destruct (index transmission_dB idx) as [trans_val | |] eqn:Ht; simpl;
      [| exact I | now apply index_not_name_error in Ht].
    destruct ((i =? 0)%nat && (1 <? length peaks_idx)%nat) eqn:Hcond.
    + apply andb_true_iff in Hcond. destruct Hcond as [_ Hlen].
      apply Nat.ltb_lt in Hlen.
      destruct (fsr_wavelength lambda_nm peaks_idx) as [f | |] eqn:Hf; simpl;
        [| exact I | now apply fsr_wavelength_not_name_error in Hf].
      specialize (IH (S i) (markers ++ [(wavelength, trans_val)]) (Some f)).
      destruct (mark_resonances _ _ _ _ _ _ _) as [[m [g |]] | |];
        try exact I; try exact IH. now right.
    + simpl.
      specialize (IH (S i) (markers ++ [(wavelength, trans_val)]) text).
      destruct (mark_resonances _ _ _ _ _ _ _) as [[m [g |]] | |];
        try exact I; exact IH.
Qed.

(** X20: the annotation code never reads the local name [fsr_arrow]
    unbound: whatever the arrays and the indices found, it raises no
    [NameError]. *)
Theorem annotate_never_name_error (lambda_nm : list R)
  (transmission_dB : list npval) (peaks_idx : list nat) :
  annotate lambda_nm transmission_dB peaks_idx <> NameError.
Proof.
  unfold annotate.
  pose proof (mark_resonances_text lambda_nm transmission_dB peaks_idx 0
                (firstn 3 peaks_idx) [] None) as Htext.
  destruct (mark_resonances _ _ _ _ _ _ _) as [[markers [f |]] | |];
    cbn [bind snd fst andb];
    [| discriminate | discriminate | contradiction].
  destruct Htext as [Habs | Hlen]; [now elim Habs |].
  assert (Hge : (2 <=? length peaks_idx)%nat = true)
    by (apply Nat.leb_le; lia).
  rewrite Hge.
  pose proof (arrow_ends_not_name_error lambda_nm peaks_idx) as Hends.
  destruct (arrow_ends lambda_nm peaks_idx); cbn [bind];
    [discriminate | discriminate | contradiction].
Qed.

Lemma fsr_wavelength_in_range (lambda_nm : list R) (peaks_idx : list nat) :
  (1 < length peaks_idx)%nat ->
  Forall (fun idx => (idx < length lambda_nm)%nat) peaks_idx ->
  fsr_wavelength lambda_nm peaks_idx
  = Returned (nth (nth 1 peaks_idx O) lambda_nm 0
              - nth (nth 0 peaks_idx O) lambda_nm 0).
Proof.
  intros Hlen Hrange. rewrite Forall_forall in Hrange.
  unfold fsr_wavelength.
  rewrite (index_in_range peaks_idx 1 O) by lia. cbn [bind].
  rewrite (index_in_range lambda_nm _ 0) by (apply Hrange, nth_In; lia).
  cbn [bind].
  rewrite (index_in_range peaks_idx 0 O) by lia. cbn [bind].
  rewrite (index_in_range lambda_nm _ 0) by (apply Hrange, nth_In; lia).
  reflexivity.
Qed.

Lemma arrow_ends_in_range (lambda_nm : list R) (peaks_idx : list nat) :
  (1 < length peaks_idx)%nat ->
  Forall (fun idx => (idx < length lambda_nm)%nat) peaks_idx ->
  arrow_ends lambda_nm peaks_idx
  = Returned ((nth (nth 0 peaks_idx O) lambda_nm 0, -25),
              (nth (nth 1 peaks_idx O) lambda_nm 0, -25)).
Proof.
  intros Hlen Hrange. rewrite Forall_forall in Hrange.
  unfold arrow_ends.
  rewrite (index_in_range peaks_idx 0 O) by lia. cbn [bind].
  rewrite (index_in_range lambda_nm _ 0) by (apply Hrange, nth_In; lia).
  cbn [bind].
  rewrite (index_in_range peaks_idx 1 O) by lia. cbn [bind].
  rewrite (index_in_range lambda_nm _ 0) by (apply Hrange, nth_In; lia).
  reflexivity.
Qed.

(** With all indices in range the loop appends one marker per index and
    sets the text in its first iteration. *)
Lemma mark_resonances_in_range (lambda_nm : list R)
  (transmission_dB : list npval) (peaks_idx : list nat) (i : nat)
  (todo : list nat) (markers : list (R * npval)) (text : option R) :
  length transmission_dB = length lambda_nm ->
  Forall (fun idx => (idx < length lambda_nm)%nat) peaks_idx ->
  Forall (fun idx => (idx < length lambda_nm)%nat) todo ->
  mark_resonances lambda_nm transmission_dB peaks_idx i todo markers text
  = Returned
      (markers
       ++ map (fun idx => (nth idx lambda_nm 0, nth idx transmission_dB NaN))
            todo,
       match todo with
       | [] => text
       | _ :: _ =>
           if (i =? 0)%nat && (1 <? length peaks_idx)%nat
           then Some (nth (nth 1 peaks_idx O) lambda_nm 0
                      - nth (nth 0 peaks_idx O) lambda_nm 0)
           else text
       end).
Proof.
  intros Hlen Hrange Htodo. revert i markers text.
  induction Htodo as [| idx rest Hidx Hrest IH]; intros i markers text.
  - simpl. now rewrite app_nil_r.
  - cbn [mark_resonances].
    rewrite (index_in_range lambda_nm idx 0) by exact Hidx. cbn [bind].
    rewrite (index_in_range transmission_dB idx NaN) by (now rewrite Hlen).
    cbn [bind].
    destruct ((i =? 0)%nat && (1 <? length peaks_idx)%nat) eqn:Hcond.
    + apply andb_true_iff in Hcond. destruct Hcond as [_ Hlt].
      apply Nat.ltb_lt in Hlt.
      rewrite fsr_wavelength_in_range by assumption. cbn [bind].
      rewrite IH. cbn [map]. rewrite <- app_assoc. cbn [app].
      f_equal. f_equal. destruct rest; reflexivity.
    + cbn [bind]. rewrite IH. cbn [map]. rewrite <- app_assoc. cbn [app].
      f_equal. f_equal. destruct rest; reflexivity.
Qed.

Lemma firstn_incl {A : Type} (n : nat) (l : list A) (x : A) :
  In x (firstn n l) -> In x l.
Proof.
  intros Hx. rewrite <- (firstn_skipn n l). apply in_or_app. now left.
Qed.

Lemma firstn_in_range (n : nat) (bound : nat) (l : list nat) :
  Forall (fun idx => (idx < bound)%nat) l ->
  Forall (fun idx => (idx < bound)%nat) (firstn n l).
Proof.
  intros H. rewrite Forall_forall in *. intros x Hx.
  apply H. eapply firstn_incl, Hx.
Qed.

(** The annotation code on indices that lie inside the arrays. *)
Lemma annotate_closed_form (lambda_nm : list R) (transmission_dB : list npval)
  (peaks_idx : list nat) :
  length transmission_dB = length lambda_nm ->
  Forall (fun idx => (idx < length lambda_nm)%nat) peaks_idx ->
  annotate lambda_nm transmission_dB peaks_idx
  = Returned
      (mkAnnotations
         (map (fun idx => (nth idx lambda_nm 0, nth idx transmission_dB NaN))
            (firstn 3 peaks_idx))
         (if (1 <? length peaks_idx)%nat
          then Some (nth (nth 1 peaks_idx O) lambda_nm 0
                     - nth (nth 0 peaks_idx O) lambda_nm 0)
          else None)
         (if (1 <? length peaks_idx)%nat
          then Some ((nth (nth 0 peaks_idx O) lambda_nm 0, -25),
                     (nth (nth 1 peaks_idx O) lambda_nm 0, -25))
          else None)).
Proof.
  intros Hlen Hrange. unfold annotate.
  rewrite mark_resonances_in_range;
    [| exact Hlen | exact Hrange | now apply firstn_in_range].
  cbn [bind fst snd app Nat.eqb andb].
  destruct (1 <? length peaks_idx)%nat eqn:Hlt.
  - apply Nat.ltb_lt in Hlt.
    assert (Hfirst : exists idx rest, firstn 3 peaks_idx = idx :: rest).
    { destruct peaks_idx as [| idx rest]; [simpl in Hlt; lia |].
      exists idx, (firstn 2 rest). reflexivity. }
    destruct Hfirst as (idx & rest & ->).
    assert (Hge : (2 <=? length peaks_idx)%nat = true)
      by (apply Nat.leb_le; lia).
    cbn [andb]. rewrite Hge.
    rewrite arrow_ends_in_range by assumption. reflexivity.
  - destruct (firstn 3 peaks_idx); reflexivity.
Qed.

(** X19: when every index found lies inside the arrays, the annotation code
    raises nothing; it places one marker per index for the first three
    indices, at the wavelength and the dB value of that sample, and with two
    indices or more it sets the FSR to the difference of the first two
    wavelengths and draws the arrow between them at -25 dB; with fewer it
    sets neither. *)
Theorem annotate_in_range (lambda_nm : list R) (transmission_dB : list npval)
  (peaks_idx : list nat) :
  length transmission_dB = length lambda_nm ->
  Forall (fun idx => (idx < length lambda_nm)%nat) peaks_idx ->
  annotate lambda_nm transmission_dB peaks_idx
  = Returned
      (mkAnnotations
         (map (fun idx => (nth idx lambda_nm 0, nth idx transmission_dB NaN))
            (firstn 3 peaks_idx))
         (if (1 <? length peaks_idx)%nat
          then Some (nth (nth 1 peaks_idx O) lambda_nm 0
                     - nth (nth 0 peaks_idx O) lambda_nm 0)
          else None)
         (if (1 <? length peaks_idx)%nat
          then Some ((nth (nth 0 peaks_idx O) lambda_nm 0, -25),
                     (nth (nth 1 peaks_idx O) lambda_nm 0, -25))
          else None)).
Proof. apply annotate_closed_form. Qed.

Lemma annotate_in_range_witness :
  annotate [1540; 1550; 1560] [Finite 0; Finite (-9); Finite 0] [1%nat]
  = Returned (mkAnnotations [(1550, Finite (-9))] None None).
Proof.
  apply (annotate_in_range [1540; 1550; 1560]
           [Finite 0; Finite (-9); Finite 0] [1%nat]).
  - reflexivity.
  - repeat constructor.
Defined.

(** ** The samples found by resonance detection *)

Lemma flat_dip_interior (T : nat -> R) (n i : nat) :
  flat_dip T n i -> (1 <= i)%nat /\ (i + 1 < n)%nat.
Proof.
  intros (l & r & H1 & H2 & -> & _).
  pose proof (midpoint_bounds l r). lia.
Qed.

Lemma transmission_dB_nth (transmission : list npval) (i : nat) :
  Forall in_unit_interval transmission ->
  (i < length transmission)%nat ->
  nth i (transmission_dB transmission) NaN
  = Finite (- depth_dB (np_value (nth i transmission NaN))).
Proof.
  intros Hall Hi. unfold transmission_dB.
  change NaN with (dB NaN) at 1. rewrite map_nth.
  destruct (in_unit_interval_nth transmission i Hall Hi) as [Heq Hrange].
  rewrite Heq at 1. rewrite dB_finite by lra.
  f_equal. unfold depth_dB. ring.
Qed.

(** What holds at every index found. *)
Lemma resonance_sample_facts (argsort : list npval -> list nat)
  (transmission : list npval) (i : nat) :
  (forall priority, Permutation (argsort priority) (seq 0 (length priority))) ->
  Forall in_unit_interval transmission ->
  In i (resonance_indices argsort transmission) ->
  (1 <= i)%nat /\ (i + 1 < length transmission)%nat /\
  exists y,
    nth i (transmission_dB transmission) NaN = Finite y /\ y <= -5 /\
    10 * (np_value (nth i transmission NaN) + 1e-10) ^ 2 <= 1.
Proof.
  intros Hperm Hall Hin.
  destruct (resonance_indices_spec argsort transmission Hperm Hall)
    as [Hspec _].
  apply Hspec in Hin. destruct Hin as (Hdip & Hdepth & _).
  apply flat_dip_interior in Hdip. destruct Hdip as [H1 H2].
  split; [exact H1 |]. split; [exact H2 |].
  exists (- depth_dB (np_value (nth i transmission NaN))).
  split; [apply transmission_dB_nth; [exact Hall | lia] |].
  split; [lra |].
  apply depth_at_least_5; [| exact Hdepth].
  apply (in_unit_interval_nth transmission i Hall). lia.
Qed.

(** X11: on a spectrum with transmissions in [0,1], every index found is an
    interior index of the arrays (never the first or the last sample), its
    dB value is a number of at most -5, and its transmission T satisfies
    10 * (T + 1e-10)^2 <= 1. *)
Theorem resonance_samples (argsort : list npval -> list nat)
  (transmission : list npval) (i : nat) :
  (forall priority, Permutation (argsort priority) (seq 0 (length priority))) ->
  Forall in_unit_interval transmission ->
  In i (resonance_indices argsort transmission) ->
  (1 <= i)%nat /\ (i + 1 < length transmission)%nat /\
  exists y,
    nth i (transmission_dB transmission) NaN = Finite y /\ y <= -5 /\
    10 * (np_value (nth i transmission NaN) + 1e-10) ^ 2 <= 1.
Proof. apply resonance_sample_facts. Qed.

(** The spectrum 1, 0, 1 has its one resonance at index 1. *)
Lemma dip_sample_found :
  In 1%nat
    (resonance_indices (stable_argsort np_ltb NaN)
       [Finite 1; Finite 0; Finite 1]).
Proof.
  destruct (resonance_indices_spec (stable_argsort np_ltb NaN)
              [Finite 1; Finite 0; Finite 1]) as [Hspec _].
  { intros priority. apply stable_argsort_permutation. }
  { repeat constructor; eexists; (split; [reflexivity | lra]). }
  apply Hspec. split; [| split].
  - exists 1%nat, 1%nat.
    split; [lia |]. split; [simpl; lia |]. split; [reflexivity |].
    split; [| simpl; lra].
    intros k Hk. replace k with 1%nat by lia. reflexivity.
  - simpl. apply depth_of_zero.
  - intros j Hj Hne. apply Hspec in Hj. destruct Hj as [Hdip _].
    apply flat_dip_interior in Hdip. simpl in Hdip. lia.
Qed.

Lemma dip_sample_valid :
  Forall in_unit_interval [Finite 1; Finite 0; Finite 1].
Proof. repeat constructor; eexists; (split; [reflexivity | lra]). Qed.

Lemma resonance_samples_witness :
  (1 <= 1)%nat /\ (1 + 1 < 3)%nat /\
  exists y,
    nth 1 (transmission_dB [Finite 1; Finite 0; Finite 1]) NaN = Finite y /\
    y <= -5 /\
    10 * (np_value (nth 1 [Finite 1; Finite 0; Finite 1] NaN) + 1e-10) ^ 2
    <= 1.
Proof.
  apply (resonance_samples (stable_argsort np_ltb NaN)
           [Finite 1; Finite 0; Finite 1] 1).
  - intros priority. apply stable_argsort_permutation.
  - exact dip_sample_valid.
  - exact dip_sample_found.
Defined.

(** ** How many resonances, how far apart *)

Lemma separated_gap (idx : list nat) (i j : nat) :
  (forall k, In k idx -> separated 20 idx k) ->
  In i idx -> In j idx -> (i < j)%nat -> (i + 20 <= j)%nat.
Proof.
  intros Hsep Hi Hj Hlt.
  specialize (Hsep i Hi j Hj). lia.
Qed.

Lemma separated_nth (idx : list nat) :
  StronglySorted Nat.lt idx ->
  (forall k, In k idx -> separated 20 idx k) ->
  forall k, (k < length idx)%nat -> (nth 0 idx O + 20 * k <= nth k idx O)%nat.
Proof.
  intros Hs Hsep k. induction k as [| k IH]; intros Hk; [lia |].
  specialize (IH ltac:(lia)).
  pose proof (sorted_nth_lt idx Hs k (S k) ltac:(lia)) as Hlt.
  pose proof (separated_gap idx (nth k idx O) (nth (S k) idx O) Hsep) as Hgap.
  specialize (Hgap ltac:(apply nth_In; lia) ltac:(apply nth_In; lia) Hlt).
  lia.
Qed.

Lemma found_sorted_separated (argsort : list npval -> list nat)
  (transmission : list npval) :
  (forall priority, Permutation (argsort priority) (seq 0 (length priority))) ->
  Forall in_unit_interval transmission ->
  let found := resonance_indices argsort transmission in
  StronglySorted Nat.lt found /\
  (forall k, In k found -> separated 20 found k) /\
  (forall k, In k found -> (1 <= k)%nat /\ (k + 1 < length transmission)%nat).
Proof.
  intros Hperm Hall found.
  destruct (resonance_indices_spec argsort transmission Hperm Hall)
    as [Hspec Hsorted].
  fold found in Hspec, Hsorted.
  split; [exact Hsorted |]. split.
  - intros k Hk. apply Hspec in Hk. apply Hk.
  - intros k Hk. apply Hspec in Hk. destruct Hk as [Hdip _].
    now apply flat_dip_interior in Hdip.
Qed.

(** X12: on a spectrum of n samples with transmissions in [0,1], detection
    returns at most (n + 17) / 20 indices: 50 for the 1000 samples of the
    program. *)
Theorem resonance_count (argsort : list npval -> list nat)
  (transmission : list npval) :
  (forall priority, Permutation (argsort priority) (seq 0 (length priority))) ->
  Forall in_unit_interval transmission ->
  (20 * length (resonance_indices argsort transmission)
   <= length transmission + 17)%nat.
Proof.
  intros Hperm Hall.
  destruct (found_sorted_separated argsort transmission Hperm Hall)
    as (Hsorted & Hsep & Hint).
  set (found := resonance_indices argsort transmission) in *.
  destruct (Nat.eq_dec (length found) 0) as [E | N]; [lia |].
  pose proof (separated_nth found Hsorted Hsep (length found - 1)
                ltac:(lia)) as Hlast.
  destruct (Hint (nth 0 found O)) as [Hfirst _]; [apply nth_In; lia |].
  destruct (Hint (nth (length found - 1) found O)) as [_ Hend];
    [apply nth_In; lia |].
  lia.
Qed.

Lemma resonance_count_witness :
  (20 * length (resonance_indices (stable_argsort np_ltb NaN)
                  [Finite 1; Finite 0; Finite 1])
   <= length [Finite 1; Finite 0; Finite 1] + 17)%nat.
Proof.
  apply (resonance_count (stable_argsort np_ltb NaN)
           [Finite 1; Finite 0; Finite 1]).
  - intros priority. apply stable_argsort_permutation.
  - exact dip_sample_valid.
Defined.

(** ** Detection and annotation together *)

Lemma found_in_range (argsort : list npval -> list nat)
  (wavelengths : list R) (transmission : list npval) :
  (forall priority, Permutation (argsort priority) (seq 0 (length priority))) ->
  length wavelengths = length transmission ->
  Forall in_unit_interval transmission ->
  Forall (fun idx => (idx < length wavelengths)%nat)
    (resonance_indices argsort transmission).
Proof.
  intros Hperm Hlen Hall. apply Forall_forall. intros i Hi.
  destruct (resonance_sample_facts argsort transmission i Hperm Hall Hi)
    as (_ & H & _).
  lia.
Qed.

Lemma found_first_two (argsort : list npval -> list nat)
  (transmission : list npval) :
  (forall priority, Permutation (argsort priority) (seq 0 (length priority))) ->
  Forall in_unit_interval transmission ->
  let found := resonance_indices argsort transmission in
  (1 < length found)%nat ->
  (nth 0 found O + 20 <= nth 1 found O)%nat /\
  (nth 1 found O < length transmission)%nat.
Proof.
  intros Hperm Hall found Hlen.
  destruct (found_sorted_separated argsort transmission Hperm Hall)
    as (Hsorted & Hsep & Hint).
  fold found in Hsorted, Hsep, Hint.
  pose proof (separated_nth found Hsorted Hsep 1 Hlen) as Hgap.
  destruct (Hint (nth 1 found O)) as [_ Hend]; [now apply nth_In |].
  lia.
Qed.

(** X13: on a spectrum with ascending wavelengths and transmissions in
    [0,1], the annotation code raises no exception; it places
    min(3, number of indices found) markers, each at a dB value of at most
    -5; it shows an FSR exactly when two indices or more were found, and
    that FSR is positive. *)
Theorem resonance_annotations (argsort : list npval -> list nat)
  (wavelengths : list R) (transmission : list npval) :
  (forall priority, Permutation (argsort priority) (seq 0 (length priority))) ->
  length wavelengths = length transmission ->
  StronglySorted Rlt wavelengths ->
  Forall in_unit_interval transmission ->
  let found := resonance_indices argsort transmission in
  exists ann,
    annotate wavelengths (transmission_dB transmission) found = Returned ann /\
    length (resonance_markers ann) = Nat.min 3 (length found) /\
    Forall (fun m => exists y, snd m = Finite y /\ y <= -5)
      (resonance_markers ann) /\
    (fsr_text ann = None <-> (length found < 2)%nat) /\
    (forall f, fsr_text ann = Some f -> 0 < f).
Proof.
  intros Hperm Hlen Hws Hall found.
  pose proof (found_in_range argsort wavelengths transmission Hperm Hlen Hall)
    as Hrange.
  fold found in Hrange.
  eexists. split.
  - apply annotate_closed_form; [| exact Hrange].
    unfold transmission_dB. now rewrite length_map.
  - cbn [resonance_markers fsr_text].
    split; [now rewrite length_map, length_firstn |].
    split.
    + apply Forall_forall. intros m Hm.
      apply in_map_iff in Hm. destruct Hm as (i & <- & Hi).
      apply firstn_incl in Hi.
      destruct (resonance_sample_facts argsort transmission i Hperm Hall Hi)
        as (_ & _ & y & Hy & Hle & _).
      exists y. split; [exact Hy | exact Hle].
    + destruct (1 <? length found)%nat eqn:Hlt.
      * apply Nat.ltb_lt in Hlt. split.
        -- split; [discriminate | lia].
        -- intros f Hf. injection Hf as <-.
           destruct (found_first_two argsort transmission Hperm Hall Hlt)
             as [Hgap Hend].
           fold found in Hgap, Hend.
           pose proof (sorted_nth_Rlt wavelengths Hws (nth 0 found O)
                         (nth 1 found O)) as Hasc.
           rewrite Hlen in Hasc. specialize (Hasc ltac:(lia)). lra.
      * apply Nat.ltb_ge in Hlt. split.
        -- split; [lia | reflexivity].
        -- discriminate.
Qed.

Lemma resonance_annotations_witness :
  exists ann,
    annotate [1540; 1550; 1560]
      (transmission_dB [Finite 1; Finite 0; Finite 1])
      (resonance_indices (stable_argsort np_ltb NaN)
         [Finite 1; Finite 0; Finite 1])
    = Returned ann /\
    length (resonance_markers ann)
    = Nat.min 3 (length (resonance_indices (stable_argsort np_ltb NaN)
                           [Finite 1; Finite 0; Finite 1])) /\
    Forall (fun m => exists y, snd m = Finite y /\ y <= -5)
      (resonance_markers ann) /\
    (fsr_text ann = None <->
     (length (resonance_indices (stable_argsort np_ltb NaN)
                [Finite 1; Finite 0; Finite 1]) < 2)%nat) /\
    (forall f, fsr_text ann = Some f -> 0 < f).
Proof.
  apply (resonance_annotations (stable_argsort np_ltb NaN) [1540; 1550; 1560]
           [Finite 1; Finite 0; Finite 1]).
  - intros priority. apply stable_argsort_permutation.
  - reflexivity.
  - repeat constructor; lra.
  - exact dip_sample_valid.
Defined.

(** ** Spectra without resonances *)

Lemma no_member_nil {A : Type} (l : list A) : (forall x, ~ In x l) -> l = [].
Proof.
  destruct l as [| y l]; [reflexivity |].
  intros H. exfalso. apply (H y). now left.
Qed.

(** X15: on fewer than three samples nothing is found, whatever the values
    ([nan] and infinities included) and whatever [np.argsort] returns. *)
Theorem resonance_indices_short (argsort : list npval -> list nat)
  (transmission : list npval) :
  (length transmission <= 2)%nat ->
  resonance_indices argsort transmission = [].
Proof.
  intros Hlen.
  destruct transmission as [| t0 [| t1 [| t2 rest]]];
    [reflexivity | reflexivity | reflexivity | simpl in Hlen; lia].
Qed.

Lemma resonance_indices_short_witness :
  resonance_indices (stable_argsort np_ltb NaN) [Finite 1; NaN] = [].
Proof.
  apply (resonance_indices_short (stable_argsort np_ltb NaN) [Finite 1; NaN]).
  simpl. lia.
Defined.

(** X16: a spectrum with transmissions in [0,1] that never decreases, or
    never increases, along the wavelength has no resonance. *)
Theorem resonance_indices_monotone (argsort : list npval -> list nat)
  (transmission : list npval) :
  (forall priority, Permutation (argsort priority) (seq 0 (length priority))) ->
  Forall in_unit_interval transmission ->
  (forall i j, (i <= j < length transmission)%nat ->
     np_value (nth i transmission NaN) <= np_value (nth j transmission NaN))
  \/
  (forall i j, (i <= j < length transmission)%nat ->
     np_value (nth j transmission NaN) <= np_value (nth i transmission NaN)) ->
  resonance_indices argsort transmission = [].
Proof.
  intros Hperm Hall Hmono.
  destruct (resonance_indices_spec argsort transmission Hperm Hall)
    as [Hspec _].
  apply no_member_nil. intros i Hi.
  apply Hspec in Hi.
  destruct Hi as [(l & r & H1 & H2 & _ & _ & H5 & H6) _].
  destruct Hmono as [Hup | Hdown].
  - specialize (Hup (l - 1)%nat l ltac:(lia)). lra.
  - specialize (Hdown l (r + 1)%nat ltac:(lia)). lra.
Qed.

Lemma resonance_indices_monotone_witness :
  resonance_indices (stable_argsort np_ltb NaN)
    [Finite 0; Finite 0.5; Finite 0.5; Finite 1] = [].
Proof.
  apply (resonance_indices_monotone (stable_argsort np_ltb NaN)
           [Finite 0; Finite 0.5; Finite 0.5; Finite 1]).
  - intros priority. apply stable_argsort_permutation.
  - apply four_in_unit_interval; lra.
  - left. intros i j Hij. simpl in Hij.
    assert (Hi : (i = 0 \/ i = 1 \/ i = 2 \/ i = 3)%nat) by lia.
    assert (Hj : (j = 0 \/ j = 1 \/ j = 2 \/ j = 3)%nat) by lia.
    destruct Hi as [-> | [-> | [-> | ->]]];
      destruct Hj as [-> | [-> | [-> | ->]]]; simpl; try lra; lia.
Defined.

(** ** The plotted curve *)

Lemma log10_at_least_minus_3 (u : R) :
  0 < u -> (-30 <= 10 * (ln u / ln 10) <-> 1e-3 <= u).
Proof.
  intros Hu. pose proof ln_10_pos as H10.
  assert (Hk : 0 < / ln 10) by now apply Rinv_0_lt_compat.
  assert (Hkk : ln 10 * / ln 10 = 1) by (apply Rinv_r; lra).
  assert (Hcube : ln (1000 * u) = 3 * ln 10 + ln u).
  { rewrite ln_mult by lra.
    replace 1000 with (10 * (10 * 10)) by lra.
    rewrite !ln_mult by lra. ring. }
  unfold Rdiv.
  assert (Hw : ln u = ln u * / ln 10 * ln 10)
    by (rewrite Rmult_assoc, (Rmult_comm (/ ln 10)), Hkk; ring).
  set (w := ln u * / ln 10) in *.
  split.
  - intros H.
    assert (Hle : ln 1 <= ln (1000 * u)) by (rewrite Hcube, ln_1, Hw; nra).
    destruct (Rle_lt_dec 1 (1000 * u)) as [Hok | Hbad]; [lra |].
    apply ln_increasing in Hbad; [lra | lra].
  - intros H.
    assert (Hle : ln 1 <= ln (1000 * u)).
    { destruct (Req_dec_T 1 (1000 * u)) as [E | N];
        [rewrite <- E; lra | left; apply ln_increasing; lra]. }
    rewrite Hcube, ln_1, Hw in Hle. nra.
Qed.

Lemma log10_below_5 (u : R) :
  0 < u -> u <= 2 -> 10 * (ln u / ln 10) <= 5.
Proof.
  intros Hu Hle. pose proof ln_10_pos as H10.
  assert (Hkk : ln 10 * / ln 10 = 1) by (apply Rinv_r; lra).
  assert (Hk : 0 < / ln 10) by now apply Rinv_0_lt_compat.
  assert (Hsq : ln (u * u) = 2 * ln u) by (rewrite ln_mult by lra; ring).
  assert (Hln : ln (u * u) < ln 10) by (apply ln_increasing; nra).
  unfold Rdiv.
  assert (Hw : ln u = ln u * / ln 10 * ln 10)
    by (rewrite Rmult_assoc, (Rmult_comm (/ ln 10)), Hkk; ring).
  set (w := ln u * / ln 10) in *. nra.
Qed.

Lemma clipped_dB (t : R) :
  0 <= t <= 1 ->
  exists y,
    np_clip (dB (Finite t)) (-30) 5 = Finite y /\
    -30 <= y <= 5 /\
    (1e-3 <= t + 1e-10 -> Finite y = dB (Finite t)) /\
    (t + 1e-10 <= 1e-3 -> y = -30).
Proof.
  intros Ht. rewrite dB_finite by lra. cbn [np_clip].
  set (d := 10 * (ln (t + 1e-10) / ln 10)).
  assert (Hu : 0 < t + 1e-10) by lra.
  pose proof (log10_at_least_minus_3 (t + 1e-10) Hu) as Hlow.
  pose proof (log10_below_5 (t + 1e-10) Hu ltac:(lra)) as Hhigh.
  fold d in Hlow, Hhigh.
  exists (Rmin 5 (Rmax d (-30))).
  split; [reflexivity |].
  assert (Hmax : -30 <= Rmax d (-30) <= 5).
  { split; [apply Rmax_r | apply Rmax_lub; lra]. }
  rewrite Rmin_right by lra.
  split; [exact Hmax |]. split.
  - intros H. apply Hlow in H. now rewrite Rmax_left by lra.
  - intros H.
    destruct (Rle_lt_dec d (-30)) as [Hd | Hd];
      [now rewrite Rmax_right by lra |].
    assert (1e-3 <= t + 1e-10) by (apply Hlow; lra).
    assert (E : t + 1e-10 = 1e-3) by lra.
    assert (-30 <= d) by (apply Hlow; lra).
    rewrite Rmax_left by lra.
    unfold d. rewrite E.
    replace 1e-3 with (/ 1000) by lra.
    rewrite ln_Rinv by lra.
    replace 1000 with (10 * (10 * 10)) by lra.
    rewrite !ln_mult by lra.
    pose proof ln_10_pos. field. lra.
Qed.

(** X9: for a transmission in [0,1] the plotted value
    [np.clip(10*log10(T + 1e-10), -30, 5)] is a number between -30 and 5;
    it is the dB value itself when T + 1e-10 >= 1e-3 and the floor -30
    below.  The upper limit 5 never cuts. *)
Theorem plotted_value (t : R) :
  0 <= t <= 1 ->
  exists y,
    np_clip (dB (Finite t)) (-30) 5 = Finite y /\
    -30 <= y <= 5 /\
    (1e-3 <= t + 1e-10 -> Finite y = dB (Finite t)) /\
    (t + 1e-10 <= 1e-3 -> y = -30).
Proof. apply clipped_dB. Qed.

Lemma plotted_value_witness :
  exists y,
    np_clip (dB (Finite 0)) (-30) 5 = Finite y /\
    -30 <= y <= 5 /\
    (1e-3 <= 0 + 1e-10 -> Finite y = dB (Finite 0)) /\
    (0 + 1e-10 <= 1e-3 -> y = -30).
Proof. apply (plotted_value 0). lra. Defined.

(** * Which of two close resonances is kept *)


Section PrioritySelection.

Variable peaks : list nat.
Variable distance : Z.
Variable prio : nat -> R.
Hypothesis peaks_sorted : StronglySorted Nat.lt peaks.






End PrioritySelection.

(** ** Orders *)






(** ** The deeper of two close resonances *)


(** * Properties of the values computed in float64 *)

(** ** Bounds *)

Lemma Rabs_bounds (x e : R) : Rabs x <= e <-> - e <= x <= e.
Proof.
  split.
  - intros H. unfold Rabs in H. destruct (Rcase_abs x); lra.
  - intros H. unfold Rabs. destruct (Rcase_abs x); lra.
Qed.

Lemma bounded_product (d s e : R) :
  - e <= d <= e -> -1 <= s <= 1 -> - e <= d * s <= e.
Proof. intros Hd Hs. nra. Qed.

(** The error of a quotient whose terms are known up to [e1] and [e2]. *)
Lemma quotient_error (n d N D e1 e2 eps : R) :
  0 <= N <= D -> 0 < D -> 0 < d ->
  - e1 <= n - N <= e1 -> - e2 <= d - D <= e2 ->
  e1 + e2 <= eps * d ->
  - eps <= n / d - N / D <= eps.
Proof.
  intros HN HD Hd Hn Hdd He.
  assert (Hq : 0 <= N / D <= 1).
  { split.
    - apply Rmult_le_pos; [lra |]. left. now apply Rinv_0_lt_compat.
    - apply Rmult_le_reg_r with D; [exact HD |].
      unfold Rdiv. rewrite Rmult_assoc, Rinv_l by lra. lra. }
  set (q := N / D) in *.
  assert (HNq : N = q * D) by (unfold q; field; lra).
  assert (Hx : n / d - q = ((n - N) - q * (d - D)) / d)
    by (rewrite HNq; field; lra).
  rewrite Hx.
  assert (Hy : - (eps * d) <= (n - N) - q * (d - D) <= eps * d).
  { assert (- e2 <= q * (d - D) <= e2) by nra. lra. }
  split.
  - apply Rmult_le_reg_r with d; [exact Hd |].
    unfold Rdiv. rewrite Rmult_assoc, Rinv_l by lra. lra.
  - apply Rmult_le_reg_r with d; [exact Hd |].
    unfold Rdiv. rewrite Rmult_assoc, Rinv_l by lra. lra.
Qed.

(** ** The formula over the real numbers *)

Lemma real_numerator_square (a r c : R) :
  real_numerator a r c = (a - r) * (a - r) + 2 * (a * r) * (1 - c).
Proof. unfold real_numerator. ring. Qed.

Lemma real_denominator_square (a r c : R) :
  real_denominator a r c = (1 - a * r) * (1 - a * r) + 2 * (a * r) * (1 - c).
Proof. unfold real_denominator. ring. Qed.

Lemma real_denominator_minus_numerator (a r c : R) :
  real_denominator a r c - real_numerator a r c
  = (1 - a * a) * (1 - r * r).
Proof. unfold real_denominator, real_numerator. ring. Qed.

(** The terms for coefficients in [[0, 0.99]]. *)
Lemma real_terms (a r c : R) :
  0 <= a <= 0.99 -> 0 <= r <= 0.99 -> -1 <= c <= 1 ->
  (a - r) * (a - r) <= real_numerator a r c
  /\ real_numerator a r c + 0.00039601 <= real_denominator a r c
  /\ 0.00039601 <= real_denominator a r c <= 4.
Proof.
  intros Ha Hr Hc.
  assert (Har : 0 <= a * r <= 0.9801) by nra.
  assert (Hc1 : 0 <= 2 * (a * r) * (1 - c)) by nra.
  assert (Hc2 : 2 * (a * r) * (1 - c) <= 3.9204) by nra.
  assert (Hk : 0.00039601 <= (1 - a * a) * (1 - r * r)).
  { assert (0.0199 <= 1 - a * a) by nra.
    assert (0.0199 <= 1 - r * r) by nra. nra. }
  assert (Hs : 0.00039601 <= (1 - a * r) * (1 - a * r) <= 1).
  { assert (Hu : 0.0199 <= 1 - a * r <= 1) by lra.
    set (u := 1 - a * r) in *. nra. }
  assert (Hup : real_denominator a r c <= 4).
  { unfold real_denominator. set (u := a * r) in *.
    assert (- (2 * u * c) <= 2 * u) by nra.
    assert (u * u <= 0.9801 * u) by nra.
    replace (2 * a * r * c) with (2 * u * c) by (unfold u; ring). lra. }
  pose proof (real_denominator_minus_numerator a r c) as Hdn.
  split; [rewrite real_numerator_square; lra |].
  split; [lra |].
  split; [rewrite real_denominator_square; lra | exact Hup].
Qed.

(** Over the reals the formula is antitone in the cosine. *)
Lemma real_T_antitone (a r c c' : R) :
  0 <= a <= 0.99 -> 0 <= r <= 0.99 -> -1 <= c' -> c' <= c -> c <= 1 ->
  real_T a r c <= real_T a r c'.
Proof.
  intros Ha Hr Hlo Hcc Hhi.
  destruct (real_terms a r c Ha Hr ltac:(lra)) as (_ & Hnd & Hd & _).
  destruct (real_terms a r c' Ha Hr ltac:(lra)) as (_ & Hnd' & Hd' & _).
  pose proof (real_denominator_minus_numerator a r c) as Hk.
  pose proof (real_denominator_minus_numerator a r c') as Hk'.
  set (K := (1 - a * a) * (1 - r * r)) in *.
  assert (HK : 0 <= K) by lra.
  assert (Hdd : real_denominator a r c <= real_denominator a r c').
  { unfold real_denominator. assert (0 <= a * r) by nra. nra. }
  unfold real_T.
  set (D := real_denominator a r c) in *.
  set (D' := real_denominator a r c') in *.
  replace (real_numerator a r c) with (D - K) by lra.
  replace (real_numerator a r c') with (D' - K) by lra.
  apply Rmult_le_reg_r with (D * D'); [apply Rmult_lt_0_compat; lra |].
  replace ((D - K) / D * (D * D')) with ((D - K) * D') by (field; lra).
  replace ((D' - K) / D' * (D * D')) with ((D' - K) * D) by (field; lra).
  nra.
Qed.

(** How much the formula moves with the cosine. *)
Lemma real_T_lipschitz (a r c c' e : R) :
  0 <= a <= 0.99 -> 0 <= r <= 0.99 -> -1 <= c <= 1 -> -1 <= c' <= 1 ->
  - e <= c - c' <= e ->
  - (5100 * e) <= real_T a r c - real_T a r c' <= 5100 * e.
Proof.
  intros Ha Hr Hc Hc' He.
  destruct (real_terms a r c Ha Hr Hc) as (Hn & Hnd & Hd & _).
  destruct (real_terms a r c' Ha Hr Hc') as (Hn' & Hnd' & Hd' & _).
  pose proof (real_denominator_minus_numerator a r c) as Hk.
  set (K := (1 - a * a) * (1 - r * r)) in *.
  assert (HK : 0 <= K <= real_denominator a r c).
  { pose proof (Rle_0_sqr (a - r)) as Hsq. unfold Rsqr in Hsq. lra. }
  assert (Har : 0 <= a * r <= 0.9801) by nra.
  assert (Hdiff : real_T a r c - real_T a r c'
                  = 2 * (a * r) * (K / real_denominator a r c)
                    * ((c' - c) / real_denominator a r c')).
  { unfold real_T, K, real_numerator, real_denominator in *. field. lra. }
  rewrite Hdiff.
  assert (Hq : 0 <= K / real_denominator a r c <= 1).
  { split.
    - apply Rmult_le_pos; [lra |]. left. apply Rinv_0_lt_compat. lra.
    - apply Rmult_le_reg_r with (real_denominator a r c); [lra |].
      unfold Rdiv. rewrite Rmult_assoc, Rinv_l by lra. lra. }
  assert (He0 : 0 <= e) by lra.
  assert (Hw : - (2526 * e) <= (c' - c) / real_denominator a r c'
               <= 2526 * e).
  { split.
    - apply Rmult_le_reg_r with (real_denominator a r c'); [lra |].
      unfold Rdiv. rewrite Rmult_assoc, Rinv_l by lra. nra.
    - apply Rmult_le_reg_r with (real_denominator a r c'); [lra |].
      unfold Rdiv. rewrite Rmult_assoc, Rinv_l by lra. nra. }
  set (q := K / real_denominator a r c) in *.
  set (w := (c' - c) / real_denominator a r c') in *.
  assert (Hqa : 0 <= 2 * (a * r) * q <= 2) by nra.
  set (s := 2 * (a * r) * q) in *.
  nra.
Qed.

(** ** The cosine *)

Lemma cos_lipschitz (x y e : R) :
  - e <= x - y <= e -> - e <= cos x - cos y <= e.
Proof.
  intros H.
  destruct (MVT_abs cos (fun z => - sin z) y x) as (z & Hz & _).
  { intros z _. apply derivable_pt_lim_cos. }
  assert (Hs : Rabs (- sin z) <= 1).
  { apply (proj2 (Rabs_bounds _ _)). pose proof (SIN_bound z). lra. }
  assert (Hd : Rabs (x - y) <= e) by (apply (proj2 (Rabs_bounds _ _)); exact H).
  assert (Hc : Rabs (cos x - cos y) <= e).
  { rewrite Hz. pose proof (Rabs_pos (x - y)). pose proof (Rabs_pos (- sin z)).
    nra. }
  now apply Rabs_bounds in Hc.
Qed.

Lemma cos_near_zero (x : R) : -2 <= x <= 2 -> 1 - x * x / 2 <= cos x.
Proof.
  intros [Hlo Hhi].
  destruct (pre_cos_bound x 0 Hlo Hhi) as [H _].
  unfold cos_approx, cos_term in H. simpl in H.
  replace (1 - x * x / 2)
    with (1 * (1 / 1) + -1 * 1 * (x * (x * 1) / (1 + 1))) by field.
  exact H.
Qed.

Lemma cos_shift_nat (x : R) (k : nat) : cos (x + 2 * PI * INR k) = cos x.
Proof.
  replace (x + 2 * PI * INR k) with (x + 2 * INR k * PI) by ring.
  apply cos_period.
Qed.

Lemma cos_shift (x : R) (m : Z) : cos (x + 2 * PI * IZR m) = cos x.
Proof.
  destruct (Z_le_gt_dec 0 m) as [Hm | Hm].
  - rewrite <- (Z2Nat.id m Hm), <- INR_IZR_INZ. apply cos_shift_nat.
  - rewrite <- (Z.opp_involutive m), opp_IZR.
    rewrite <- (Z2Nat.id (- m)) by lia. rewrite <- INR_IZR_INZ.
    rewrite <- (cos_shift_nat (x + 2 * PI * - INR (Z.to_nat (- m)))
                  (Z.to_nat (- m))).
    f_equal. ring.
Qed.

(** The cosine of a phase within [1e-9] of a multiple of [2*PI]. *)
Lemma cos_near_resonance (phi : R) (m : Z) :
  - 1e-9 <= phi - 2 * PI * IZR m <= 1e-9 -> 1 - 1e-18 <= cos phi.
Proof.
  intros H.
  replace phi with ((phi - 2 * PI * IZR m) + 2 * PI * IZR m) by ring.
  rewrite cos_shift.
  set (x := phi - 2 * PI * IZR m) in *.
  pose proof (cos_near_zero x ltac:(lra)) as Hc.
  assert (x * x <= 1e-18) by nra. lra.
Qed.

(** ** Rounded operations on small numbers *)

Section Float64Model.

Variables (round pow2 : R -> npval) (cos_lib : R -> R).
Hypothesis model : float64_model round pow2 cos_lib.

Local Abbreviation F := (rounded round pow2).

Lemma round_small (x : R) :
  -8 <= x <= 8 ->
  exists y, round x = Finite y /\ - 1e-15 <= y - x <= 1e-15.
Proof.
  intros Hx.
  assert (Hab : Rabs x <= 8) by (apply (proj2 (Rabs_bounds x 8)); lra).
  destruct (round_error _ _ _ model x) as (y & Hy & He); [lra |].
  exists y. split; [exact Hy |].
  assert (Hb : Rabs (y - x) <= 1e-15) by lra.
  apply Rabs_bounds in Hb. lra.
Qed.

Lemma round_medium (x : R) :
  -1024 <= x <= 1024 ->
  exists y, round x = Finite y /\ - 1.3e-13 <= y - x <= 1.3e-13.
Proof.
  intros Hx.
  assert (Hab : Rabs x <= 1024) by (apply (proj2 (Rabs_bounds x 1024)); lra).
  destruct (round_error _ _ _ model x) as (y & Hy & He); [lra |].
  exists y. split; [exact Hy |].
  assert (Hb : Rabs (y - x) <= 1.3e-13) by lra.
  apply Rabs_bounds in Hb. lra.
Qed.

Lemma pow2_small (x : R) :
  -2 <= x <= 2 ->
  exists y, pow2 x = Finite y /\ - 1e-15 <= y - x * x <= 1e-15.
Proof.
  intros Hx.
  assert (Hab : Rabs x <= 2) by (apply (proj2 (Rabs_bounds x 2)); lra).
  destruct (pow2_error _ _ _ model x) as (y & Hy & He); [lra |].
  exists y. split; [exact Hy |].
  assert (Hsq : 0 <= x * x <= 4) by nra.
  assert (Hb : Rabs (y - x * x) <= 1e-15) by lra.
  apply Rabs_bounds in Hb. lra.
Qed.

(** Rounding a quotient of two numbers in [[0, 1]]. *)
Lemma round_unit_interval (x y : R) :
  0 <= x <= 1 -> round x = Finite y -> 0 <= y <= 1.
Proof.
  intros Hx Hy. split.
  - exact (round_monotone _ _ _ model 0 x 0 y (proj1 Hx)
             (round_0 _ _ _ model) Hy).
  - exact (round_monotone _ _ _ model x 1 y 1 (proj2 Hx) Hy
             (round_1 _ _ _ model)).
Qed.

(** ** The error of the two terms *)

(** [2*a*r*np.cos(phi)] *)
Lemma cross_term_error (a r c : R) :
  -1 <= a <= 1 -> -1 <= r <= 1 -> -1 <= c <= 1 ->
  exists m, Float64.cross_term F (Finite a) (Finite r) (Finite c) = Finite m
            /\ - 3e-15 <= m - 2 * a * r * c <= 3e-15.
Proof.
  intros Ha Hr Hc. unfold Float64.cross_term. cbn.
  destruct (round_small (2 * a)) as (t & Ht & Et); [lra |].
  rewrite Ht. cbn.
  assert (Htr : -2.1 <= t * r <= 2.1) by nra.
  destruct (round_small (t * r)) as (k & Hk & Ek); [lra |].
  rewrite Hk. cbn.
  assert (Hkc : -2.2 <= k * c <= 2.2) by nra.
  destruct (round_small (k * c)) as (m & Hm & Em); [lra |].
  rewrite Hm. exists m. split; [reflexivity |].
  pose proof (bounded_product (t - 2 * a) r 1e-15 ltac:(lra) Hr) as E1.
  pose proof (bounded_product ((t - 2 * a) * r) c 1e-15 E1 Hc) as E2.
  pose proof (bounded_product (k - t * r) c 1e-15 ltac:(lra) Hc) as E3.
  replace (m - 2 * a * r * c)
    with ((m - k * c) + (k - t * r) * c + (t - 2 * a) * r * c) by ring.
  lra.
Qed.

(** [numerator = a**2 - 2*a*r*np.cos(phi) + r**2] *)
Lemma numerator_error (a r c : R) :
  -1 <= a <= 1 -> -1 <= r <= 1 -> -1 <= c <= 1 ->
  exists n, Float64.numerator F (Finite a) (Finite r) (Finite c)
            = Value (Finite n)
            /\ - 7e-15 <= n - real_numerator a r c <= 7e-15.
Proof.
  intros Ha Hr Hc. unfold Float64.numerator.
  destruct (cross_term_error a r c Ha Hr Hc) as (m & Hm & Em).
  rewrite Hm. cbn.
  destruct (pow2_small a) as (a2 & Ha2 & Ea); [lra |].
  destruct (pow2_small r) as (r2 & Hr2 & Er); [lra |].
  rewrite Ha2, Hr2. cbn.
  assert (Haa : 0 <= a * a <= 1) by nra.
  assert (Hrr : 0 <= r * r <= 1) by nra.
  assert (Hm2 : -2 <= 2 * a * r * c <= 2).
  { assert (-1 <= a * r <= 1) by nra.
    set (u := a * r) in *.
    replace (2 * a * r * c) with (2 * (u * c)) by (unfold u; ring). nra. }
  destruct (round_small (a2 + - m)) as (s & Hs & Es); [lra |].
  rewrite Hs. cbn.
  destruct (round_small (s + r2)) as (n & Hn & En); [lra |].
  rewrite Hn. exists n. split; [reflexivity |].
  unfold real_numerator. lra.
Qed.

(** [denominator = 1 - 2*a*r*np.cos(phi) + (a*r)**2] *)
Lemma denominator_error (a r c : R) :
  -1 <= a <= 1 -> -1 <= r <= 1 -> -1 <= c <= 1 ->
  exists d, Float64.denominator F (Finite a) (Finite r) (Finite c)
            = Value (Finite d)
            /\ - 9e-15 <= d - real_denominator a r c <= 9e-15.
Proof.
  intros Ha Hr Hc. unfold Float64.denominator.
  destruct (cross_term_error a r c Ha Hr Hc) as (m & Hm & Em).
  rewrite Hm. cbn.
  assert (Har : -1 <= a * r <= 1) by nra.
  destruct (round_small (a * r)) as (p & Hp & Ep); [lra |].
  rewrite Hp. cbn.
  destruct (pow2_small p) as (p2 & Hp2 & Ep2); [lra |].
  rewrite Hp2. cbn.
  assert (Hm2 : -2 <= 2 * a * r * c <= 2).
  { set (u := a * r) in *.
    replace (2 * a * r * c) with (2 * (u * c)) by (unfold u; ring). nra. }
  assert (Hpp : - 2.1e-15 <= p * p - (a * r) * (a * r) <= 2.1e-15).
  { set (u := a * r) in *.
    replace (p * p - u * u) with ((p - u) * (p + u)) by ring.
    assert (-2.1 <= p + u <= 2.1) by lra.
    set (w := p + u) in *. set (d := p - u) in *. nra. }
  assert (Hp2b : -1 <= p * p <= 2) by nra.
  destruct (round_small (1 + - m)) as (s & Hs & Es); [lra |].
  rewrite Hs. cbn.
  destruct (round_small (s + p2)) as (d & Hd & Ed); [lra |].
  rewrite Hd. exists d. split; [reflexivity |].
  unfold real_denominator. lra.
Qed.

(** ** The error of the transmission *)

(** For coefficients in [[0, 0.99]] and a cosine in [[-1, 1]] the function
    returns a number within [5e-11] of the value of the formula over the
    reals. *)
Lemma transmission_error (a r c : R) :
  0 <= a <= 0.99 -> 0 <= r <= 0.99 -> -1 <= c <= 1 ->
  exists n d t,
    Float64.numerator F (Finite a) (Finite r) (Finite c) = Value (Finite n)
    /\ Float64.denominator F (Finite a) (Finite r) (Finite c)
       = Value (Finite d)
    /\ Float64.transmission_from_cos F (Finite a) (Finite r) (Finite c)
       = Value (Finite t)
    /\ round (n / d) = Finite t
    /\ - 7e-15 <= n - real_numerator a r c <= 7e-15
    /\ - 9e-15 <= d - real_denominator a r c <= 9e-15
    /\ 0.00039 <= d
    /\ - 5e-11 <= t - real_T a r c <= 5e-11.
Proof.
  intros Ha Hr Hc.
  destruct (numerator_error a r c) as (n & Hn & En); [lra | lra | lra |].
  destruct (denominator_error a r c) as (d & Hd & Ed); [lra | lra | lra |].
  destruct (real_terms a r c Ha Hr Hc) as (HN & HND & HD & HD4).
  assert (HN0 : 0 <= real_numerator a r c).
  { pose proof (Rle_0_sqr (a - r)) as Hsq. unfold Rsqr in Hsq. lra. }
  assert (Hdpos : 0.00039 <= d) by lra.
  pose proof (quotient_error n d (real_numerator a r c)
                (real_denominator a r c) 7e-15 9e-15 4.2e-11
                ltac:(lra) ltac:(lra) ltac:(lra) ltac:(lra) ltac:(lra)
                ltac:(lra)) as Eq.
  fold (real_T a r c) in Eq.
  assert (HT : 0 <= real_T a r c <= 1).
  { unfold real_T. split.
    - apply Rmult_le_pos; [lra |]. left. apply Rinv_0_lt_compat. lra.
    - apply Rmult_le_reg_r with (real_denominator a r c); [lra |].
      unfold Rdiv. rewrite Rmult_assoc, Rinv_l by lra. lra. }
  destruct (round_small (n / d)) as (t & Ht & Et); [lra |].
  exists n, d, t.
  split; [exact Hn |]. split; [exact Hd |].
  split.
  { unfold Float64.transmission_from_cos. rewrite Hn, Hd. cbn.
    destruct (Req_dec_T d 0) as [E | _]; [lra |]. now rewrite Ht. }
  split; [exact Ht |].
  split; [exact En |]. split; [exact Ed |]. split; [exact Hdpos |]. lra.
Qed.

(** ** The function at a wavelength *)

Lemma transmission_at_phase (p : Float64.ResonatorParameters F)
    (wavelength : npval) (a r phi : R) :
  Float64.a p = Finite a -> Float64.r p = Finite r ->
  Float64.phase F p wavelength = Finite phi ->
  Float64.transmission_function F (rounded_cos cos_lib) p wavelength
  = Float64.transmission_from_cos F (Finite a) (Finite r)
      (Finite (cos_lib phi)).
Proof.
  intros Ha Hr Hphi.
  unfold Float64.transmission_function, Float64.transmission_of_phase.
  now rewrite Ha, Hr, Hphi.
Qed.

Lemma cos_lib_range (x : R) : -1 <= cos_lib x <= 1.
Proof. exact (proj2 (cos_error _ _ _ model x)). Qed.

Lemma cos_lib_error (x : R) : - 1e-15 <= cos_lib x - cos x <= 1e-15.
Proof.
  pose proof (proj1 (cos_error _ _ _ model x)) as H.
  apply Rabs_bounds in H. lra.
Qed.

(** The value of [np.cos] at a phase within [1e-9] of a multiple of
    [2*PI]. *)
Lemma cos_lib_near_resonance (phi : R) (m : Z) :
  Rabs (phi - 2 * PI * IZR m) <= 1e-9 ->
  1 - 1.1e-15 <= cos_lib phi <= 1.
Proof.
  intros H. apply Rabs_bounds in H.
  pose proof (cos_near_resonance phi m ltac:(lra)).
  pose proof (cos_lib_error phi). pose proof (cos_lib_range phi). lra.
Qed.

(** ** Range *)

(** C2, amended: for every wavelength whose phase is a number and all
    coefficients r, a in [0, 0.99] the function returns a number in
    [-5e-11, 1]; it lies in [0, 1] as soon as r and a differ by at least
    1e-6, as the program's 0.9 and 0.95 do. *)
Theorem float64_transmission_in_unit_interval
    (p : Float64.ResonatorParameters F) (wavelength : npval)
    (a r phi : R) :
  Float64.a p = Finite a -> Float64.r p = Finite r ->
  0 <= r <= 0.99 -> 0 <= a <= 0.99 ->
  Float64.phase F p wavelength = Finite phi ->
  exists t,
    Float64.transmission_function F (rounded_cos cos_lib) p wavelength
    = Value (Finite t)
    /\ - 5e-11 <= t <= 1
    /\ (1e-6 <= Rabs (a - r) -> 0 <= t).
Proof.
  intros Hpa Hpr Hr Ha Hphi.
  rewrite (transmission_at_phase p wavelength a r phi Hpa Hpr Hphi).
  pose proof (cos_lib_range phi) as Hc.
  destruct (transmission_error a r (cos_lib phi) Ha Hr Hc)
    as (n & d & t & _ & _ & HT & Ht & En & Ed & Hd & Et).
  destruct (real_terms a r (cos_lib phi) Ha Hr Hc) as (HN & HND & HD & _).
  assert (HN0 : 0 <= (a - r) * (a - r))
    by (pose proof (Rle_0_sqr (a - r)) as Hsq; unfold Rsqr in Hsq; lra).
  assert (HT0 : 0 <= real_T a r (cos_lib phi)).
  { unfold real_T. apply Rmult_le_pos; [lra |].
    left. apply Rinv_0_lt_compat. lra. }
  assert (Hq1 : n / d <= 1).
  { apply Rmult_le_reg_r with d; [lra |].
    unfold Rdiv. rewrite Rmult_assoc, Rinv_l by lra. lra. }
  exists t. split; [exact HT |]. split; [split |].
  - lra.
  - exact (round_monotone _ _ _ model (n / d) 1 t 1 Hq1 Ht
             (round_1 _ _ _ model)).
  - intros Hgap.
    assert (Hsq : 1e-12 <= (a - r) * (a - r)).
    { unfold Rabs in Hgap. destruct (Rcase_abs (a - r)); nra. }
    assert (Hq0 : 0 <= n / d).
    { apply Rmult_le_pos; [lra |]. left. apply Rinv_0_lt_compat. lra. }
    exact (round_monotone _ _ _ model 0 (n / d) 0 t Hq0
             (round_0 _ _ _ model) Ht).
Qed.

(** ** Resonance *)

(** The value at a phase within [1e-9] of a multiple of [2*PI]. *)
Lemma transmission_near_resonance (a r phi : R) (m : Z) :
  0 <= a <= 0.99 -> 0 <= r <= 0.99 ->
  Rabs (phi - 2 * PI * IZR m) <= 1e-9 ->
  exists t,
    Float64.transmission_from_cos F (Finite a) (Finite r)
      (Finite (cos_lib phi)) = Value (Finite t)
    /\ - 6e-11 <= t - real_T a r 1 <= 6e-11.
Proof.
  intros Ha Hr Hres.
  pose proof (cos_lib_near_resonance phi m Hres) as Hc.
  destruct (transmission_error a r (cos_lib phi) Ha Hr ltac:(lra))
    as (n & d & t & _ & _ & HT & _ & _ & _ & _ & Et).
  pose proof (real_T_lipschitz a r (cos_lib phi) 1 1.1e-15 Ha Hr
                ltac:(lra) ltac:(lra) ltac:(lra)) as HL.
  exists t. split; [exact HT | lra].
Qed.

(** C6, amended: for all r, a in [0, 0.99], the transmission at a wavelength
    whose phase is within 1e-9 of a multiple of 2*pi is, up to 2e-10, no
    larger than the transmission at any other wavelength whose phase is a
    number. *)
Theorem float64_transmission_minimal_at_resonance
    (p : Float64.ResonatorParameters F) (resonant wavelength : npval)
    (a r phi_res phi : R) (m : Z) :
  Float64.a p = Finite a -> Float64.r p = Finite r ->
  0 <= r <= 0.99 -> 0 <= a <= 0.99 ->
  Float64.phase F p resonant = Finite phi_res ->
  Rabs (phi_res - 2 * PI * IZR m) <= 1e-9 ->
  Float64.phase F p wavelength = Finite phi ->
  exists t_res t,
    Float64.transmission_function F (rounded_cos cos_lib) p resonant
    = Value (Finite t_res)
    /\ Float64.transmission_function F (rounded_cos cos_lib) p wavelength
       = Value (Finite t)
    /\ t_res <= t + 2e-10.
Proof.
  intros Hpa Hpr Hr Ha Hres Hm Hphi.
  rewrite (transmission_at_phase p resonant a r phi_res Hpa Hpr Hres).
  rewrite (transmission_at_phase p wavelength a r phi Hpa Hpr Hphi).
  destruct (transmission_near_resonance a r phi_res m Ha Hr Hm)
    as (t_res & HTres & Eres).
  pose proof (cos_lib_range phi) as Hc.
  destruct (transmission_error a r (cos_lib phi) Ha Hr Hc)
    as (n & d & t & _ & _ & HT & _ & _ & _ & _ & Et).
  pose proof (real_T_antitone a r 1 (cos_lib phi) Ha Hr
                ltac:(lra) ltac:(lra) ltac:(lra)) as Hmin.
  exists t_res, t. split; [exact HTres |]. split; [exact HT | lra].
Qed.

(** C7, amended: at critical coupling r = a in [0, 0.99], the transmission
    at a wavelength whose phase is within 1e-9 of a multiple of 2*pi is a
    number within 1e-10 of 0. *)
Theorem float64_transmission_critical_coupling
    (p : Float64.ResonatorParameters F) (wavelength : npval)
    (a phi : R) (m : Z) :
  Float64.a p = Finite a -> Float64.r p = Finite a ->
  0 <= a <= 0.99 ->
  Float64.phase F p wavelength = Finite phi ->
  Rabs (phi - 2 * PI * IZR m) <= 1e-9 ->
  exists t,
    Float64.transmission_function F (rounded_cos cos_lib) p wavelength
    = Value (Finite t)
    /\ - 1e-10 <= t <= 1e-10.
Proof.
  intros Hpa Hpr Ha Hphi Hm.
  rewrite (transmission_at_phase p wavelength a a phi Hpa Hpr Hphi).
  destruct (transmission_near_resonance a a phi m Ha Ha Hm)
    as (t & HT & Et).
  assert (H0 : real_T a a 1 = 0).
  { unfold real_T, real_numerator.
    replace (a * a - 2 * a * a * 1 + a * a) with 0 by ring.
    unfold Rdiv. ring. }
  exists t. split; [exact HT | lra].
Qed.

(** ** Periodicity *)

(** [phi + 2 * np.pi] for a phase of magnitude at most 1000. *)
Lemma phase_plus_period (phi : R) :
  -1000 <= phi <= 1000 ->
  exists phi',
    f_add F (Finite phi) (f_mul F (f_two F) (np_pi F)) = Finite phi'
    /\ - 2.7e-13 <= phi' - (phi + 2 * PI) <= 2.7e-13.
Proof.
  intros Hphi. cbn.
  pose proof PI_4. pose proof PI_RGT_0.
  destruct (round_small PI) as (pi & Hpi & Epi); [lra |].
  rewrite Hpi. cbn.
  destruct (round_medium (2 * pi)) as (tp & Htp & Etp); [lra |].
  rewrite Htp. cbn.
  destruct (round_medium (phi + tp)) as (phi' & Hphi' & Ephi'); [lra |].
  rewrite Hphi'. exists phi'. split; [reflexivity | lra].
Qed.

(** C8, amended: for all r, a in [0, 0.99] and every phase phi of magnitude
    at most 1000, the transmission computed from phi and the transmission
    computed from phi + 2*pi are numbers that differ by at most 2e-9. *)
Theorem float64_transmission_periodic (a r phi : R) :
  0 <= r <= 0.99 -> 0 <= a <= 0.99 -> -1000 <= phi <= 1000 ->
  exists phi' t t',
    f_add F (Finite phi) (f_mul F (f_two F) (np_pi F)) = Finite phi'
    /\ Float64.transmission_of_phase F (rounded_cos cos_lib)
         (Finite a) (Finite r) (Finite phi) = Value (Finite t)
    /\ Float64.transmission_of_phase F (rounded_cos cos_lib)
         (Finite a) (Finite r) (Finite phi') = Value (Finite t')
    /\ - 2e-9 <= t - t' <= 2e-9.
Proof.
  intros Hr Ha Hphi.
  destruct (phase_plus_period phi Hphi) as (phi' & Hphi' & Ephi').
  unfold Float64.transmission_of_phase. cbn [rounded_cos].
  pose proof (cos_lib_range phi) as Hc.
  pose proof (cos_lib_range phi') as Hc'.
  destruct (transmission_error a r (cos_lib phi) Ha Hr Hc)
    as (n & d & t & _ & _ & HT & _ & _ & _ & _ & Et).
  destruct (transmission_error a r (cos_lib phi') Ha Hr Hc')
    as (n' & d' & t' & _ & _ & HT' & _ & _ & _ & _ & Et').
  assert (Hcos : - 2.7e-13 <= cos phi' - cos phi <= 2.7e-13).
  { pose proof (cos_lipschitz phi' (phi + 2 * PI) 2.7e-13 ltac:(lra)) as HL.
    replace (cos (phi + 2 * PI)) with (cos phi) in HL; [lra |].
    symmetry. replace (phi + 2 * PI) with (phi + 2 * INR 1 * PI)
      by (simpl; ring).
    apply cos_period. }
  pose proof (cos_lib_error phi) as E1.
  pose proof (cos_lib_error phi') as E2.
  pose proof (real_T_lipschitz a r (cos_lib phi) (cos_lib phi') 2.8e-13
                Ha Hr Hc Hc' ltac:(lra)) as HL.
  exists phi', t, t'.
  split; [exact Hphi' |]. split; [exact HT |]. split; [exact HT' | lra].
Qed.

(** ** The program's own parameters *)

(** Rounding keeps a bound that is itself far from overflow. *)
Lemma round_bounded (x B : R) :
  - B <= x <= B -> B <= 1e299 ->
  exists y, round x = Finite y /\ - (1.001 * B + 1e-300) <= y
            /\ y <= 1.001 * B + 1e-300.
Proof.
  intros Hx HB.
  assert (Hab : Rabs x <= B) by (apply (proj2 (Rabs_bounds x B)); exact Hx).
  destruct (round_error _ _ _ model x) as (y & Hy & He); [lra |].
  exists y. split; [exact Hy |].
  assert (Hb : Rabs (y - x) <= 0.001 * B + 1e-300) by lra.
  apply Rabs_bounds in Hb. lra.
Qed.

(** The coefficients set by [construct]. *)
Lemma construct_coefficients :
  exists a r,
    Float64.a (rounded_construct round pow2) = Finite a
    /\ Float64.r (rounded_construct round pow2) = Finite r
    /\ - 1e-15 <= a - 0.95 <= 1e-15
    /\ - 1e-15 <= r - 0.9 <= 1e-15.
Proof.
  destruct (round_small 0.95) as (a & Ha & Ea); [lra |].
  destruct (round_small 0.9) as (r & Hr & Er); [lra |].
  exists a, r. cbn. repeat split; assumption || lra.
Qed.

(** The phase of the program's ring is a number at every wavelength of
    magnitude at least [1e-290]. *)
Lemma construct_phase (wavelength : R) :
  1e-290 <= Rabs wavelength ->
  exists phi,
    Float64.phase F (rounded_construct round pow2) (Finite wavelength)
    = Finite phi.
Proof.
  intros Hw. unfold Float64.phase. cbn.
  pose proof PI_4. pose proof PI_RGT_0.
  destruct (round_small PI) as (pi & Hpi & Epi); [lra |].
  rewrite Hpi. cbn.
  destruct (round_bounded (2 * pi) 9) as (tp & Htp & Etp); [lra | lra |].
  rewrite Htp. cbn.
  destruct (round_small 2.4) as (n & Hn & En); [lra |].
  rewrite Hn. cbn.
  assert (Htn : - 22 <= tp * n <= 22) by nra.
  destruct (round_bounded (tp * n) 22) as (u & Hu & Eu); [lra | lra |].
  rewrite Hu. cbn.
  destruct (round_small (10 / 1000000)) as (rr & Hrr & Err); [lra |].
  rewrite Hrr. cbn.
  assert (Htr : - 1 <= tp * rr <= 1) by nra.
  destruct (round_bounded (tp * rr) 1) as (l & Hl & El); [lra | lra |].
  rewrite Hl. cbn.
  assert (Hul : - 23 <= u * l <= 23) by nra.
  destruct (round_bounded (u * l) 23) as (k & Hk & Ek); [lra | lra |].
  rewrite Hk. cbn.
  assert (Hw0 : wavelength <> 0).
  { intros E. rewrite E, Rabs_R0 in Hw. lra. }
  destruct (Req_dec_T wavelength 0) as [E | _]; [contradiction |].
  assert (Hq : Rabs (k / wavelength) <= 1e300).
  { unfold Rdiv. rewrite Rabs_mult, Rabs_inv.
    assert (Hk' : Rabs k <= 24) by (apply (proj2 (Rabs_bounds k 24)); lra).
    pose proof (Rabs_pos k).
    assert (Hi : / Rabs wavelength <= 1e290).
    { replace 1e290 with (/ 1e-290) by lra.
      apply Rinv_le_contravar; lra. }
    assert (0 < / Rabs wavelength) by (apply Rinv_0_lt_compat; lra).
    nra. }
  destruct (round_error _ _ _ model (k / wavelength) Hq) as (phi & Hphi & _).
  exists phi. exact Hphi.
Qed.

(** C9, amended: with the program's parameters r = 0.9 and a = 0.95 the
    divisor 1 - 2*a*r*cos(phi) + (a*r)**2 computed in float64 is at least
    0.021025 - 1e-14 > 0 at every wavelength of magnitude at least 1e-290,
    so the division never has a zero divisor and the function returns a
    number. *)
Theorem float64_construct_denominator_positive (wavelength : R) :
  1e-290 <= Rabs wavelength ->
  exists phi d t,
    Float64.phase F (rounded_construct round pow2) (Finite wavelength)
    = Finite phi
    /\ Float64.denominator F
         (Float64.a (rounded_construct round pow2))
         (Float64.r (rounded_construct round pow2))
         (rounded_cos cos_lib (Finite phi)) = Value (Finite d)
    /\ 0.021025 - 1e-14 <= d
    /\ Float64.transmission_function F (rounded_cos cos_lib)
         (rounded_construct round pow2) (Finite wavelength)
       = Value (Finite t).
Proof.
  intros Hw.
  destruct (construct_phase wavelength Hw) as (phi & Hphi).
  destruct construct_coefficients as (a & r & Ha & Hr & Ea & Er).
  rewrite (transmission_at_phase _ _ a r phi Ha Hr Hphi).
  rewrite Ha, Hr. cbn [rounded_cos].
  pose proof (cos_lib_range phi) as Hc.
  destruct (transmission_error a r (cos_lib phi)
              ltac:(lra) ltac:(lra) Hc)
    as (n & d & t & _ & Hd & HT & _ & _ & Ed & _ & _).
  exists phi, d, t.
  split; [exact Hphi |]. split; [exact Hd |]. split; [| exact HT].
  assert (Har : 0.85 <= a * r <= 0.855 + 2e-15) by nra.
  assert (HD : 0.021025 - 1e-15 <= real_denominator a r (cos_lib phi)).
  { rewrite real_denominator_square.
    assert (0 <= 2 * (a * r) * (1 - cos_lib phi)) by nra.
    assert (Hu : 0.145 - 2e-15 <= 1 - a * r <= 0.15) by lra.
    set (u := 1 - a * r) in *.
    assert (0.021025 - 1e-15 <= u * u) by nra. lra. }
  lra.
Qed.

(** ** Accuracy and the range of the program's spectrum *)

(** X22: for all r, a in [0, 0.99], at every wavelength whose phase phi is
    a number, the function returns a number within 6e-11 of the value
    T(phi) of the formula over the reals. *)
Theorem float64_transmission_accuracy
    (p : Float64.ResonatorParameters F) (wavelength : npval)
    (a r phi : R) :
  Float64.a p = Finite a -> Float64.r p = Finite r ->
  0 <= r <= 0.99 -> 0 <= a <= 0.99 ->
  Float64.phase F p wavelength = Finite phi ->
  exists t,
    Float64.transmission_function F (rounded_cos cos_lib) p wavelength
    = Value (Finite t)
    /\ Rabs (t - real_T a r (cos phi)) <= 6e-11.
Proof.
  intros Hpa Hpr Hr Ha Hphi.
  rewrite (transmission_at_phase p wavelength a r phi Hpa Hpr Hphi).
  destruct (transmission_error a r (cos_lib phi) Ha Hr (cos_lib_range phi))
    as (n & d & t & _ & _ & HT & _ & _ & _ & _ & Et).
  pose proof (cos_lib_error phi) as Ec.
  pose proof (real_T_lipschitz a r (cos_lib phi) (cos phi) 1e-15 Ha Hr
                (cos_lib_range phi) (COS_bound phi) ltac:(lra)) as HL.
  exists t. split; [exact HT |].
  apply (proj2 (Rabs_bounds _ _)). lra.
Qed.

(** The formula over the reals at the two ends of the cosine, for
    coefficients within [1e-15] of 0.95 and 0.9. *)
Lemma construct_real_T_range (a r c : R) :
  - 1e-15 <= a - 0.95 <= 1e-15 -> - 1e-15 <= r - 0.9 <= 1e-15 ->
  -1 <= c <= 1 ->
  0.118906 <= real_T a r c <= 0.994617.
Proof.
  intros Ea Er Hc.
  assert (Ha : 0 <= a <= 0.99) by lra.
  assert (Hr : 0 <= r <= 0.99) by lra.
  pose proof (real_T_antitone a r 1 c Ha Hr ltac:(lra) ltac:(lra)
                ltac:(lra)) as Hlo.
  pose proof (real_T_antitone a r c (-1) Ha Hr ltac:(lra) ltac:(lra)
                ltac:(lra)) as Hhi.
  destruct (real_terms a r 1 Ha Hr ltac:(lra)) as (_ & _ & HD1 & _).
  destruct (real_terms a r (-1) Ha Hr ltac:(lra)) as (_ & _ & HD2 & _).
  assert (Har : 0.855 - 2e-15 <= a * r <= 0.855 + 2e-15) by nra.
  assert (H1 : 0.118906 <= real_T a r 1).
  { unfold real_T.
    apply Rmult_le_reg_r with (real_denominator a r 1); [lra |].
    unfold Rdiv. rewrite Rmult_assoc, Rinv_l by lra.
    rewrite real_numerator_square, real_denominator_square.
    assert (Hu : 0.145 - 2e-15 <= 1 - a * r <= 0.145 + 2e-15) by lra.
    assert (Hv : 0.05 - 2e-15 <= a - r <= 0.05 + 2e-15) by lra.
    set (u := 1 - a * r) in *. set (v := a - r) in *.
    assert (u * u <= 0.0210250001) by nra.
    assert (0.0024999999 <= v * v) by nra.
    lra. }
  assert (H2 : real_T a r (-1) <= 0.994617).
  { unfold real_T.
    apply Rmult_le_reg_r with (real_denominator a r (-1)); [lra |].
    unfold Rdiv. rewrite Rmult_assoc, Rinv_l by lra.
    unfold real_numerator, real_denominator.
    replace (a * a - 2 * a * r * -1 + r * r) with ((a + r) * (a + r))
      by ring.
    replace (1 - 2 * a * r * -1 + a * r * (a * r))
      with ((1 + a * r) * (1 + a * r)) by ring.
    assert (Hu : 1.855 - 2e-15 <= 1 + a * r <= 1.855 + 2e-15) by lra.
    assert (Hv : 1.85 - 2e-15 <= a + r <= 1.85 + 2e-15) by lra.
    set (u := 1 + a * r) in *. set (v := a + r) in *.
    assert (3.4410249999 <= u * u) by nra.
    assert (v * v <= 3.4225000001) by nra.
    lra. }
  lra.
Qed.

(** X23: with the program's parameters r = 0.9 and a = 0.95, at every
    wavelength of magnitude at least 1e-290 the function returns a number
    between 0.1189 and 0.9947. *)
Theorem float64_construct_transmission_range (wavelength : R) :
  1e-290 <= Rabs wavelength ->
  exists t,
    Float64.transmission_function F (rounded_cos cos_lib)
      (rounded_construct round pow2) (Finite wavelength)
    = Value (Finite t)
    /\ 0.1189 <= t <= 0.9947.
Proof.
  intros Hw.
  destruct (construct_phase wavelength Hw) as (phi & Hphi).
  destruct construct_coefficients as (a & r & Ha & Hr & Ea & Er).
  rewrite (transmission_at_phase _ _ a r phi Ha Hr Hphi).
  pose proof (cos_lib_range phi) as Hc.
  destruct (transmission_error a r (cos_lib phi)
              ltac:(lra) ltac:(lra) Hc)
    as (n & d & t & _ & _ & HT & _ & _ & _ & _ & Et).
  pose proof (construct_real_T_range a r (cos_lib phi) Ea Er Hc).
  exists t. split; [exact HT | lra].
Qed.

(** ** The wavelength zero *)

(** X8: a wavelength entry equal to 0 makes the phase an infinity or nan;
    for coefficients of magnitude at most 1 and numbers [n_eff] and [L] the
    function then returns nan and raises nothing. *)
Theorem float64_transmission_zero_wavelength
    (p : Float64.ResonatorParameters F) (n l a r : R) :
  Float64.n_eff p = Finite n -> Float64.L p = Finite l ->
  Float64.a p = Finite a -> Float64.r p = Finite r ->
  -1 <= a <= 1 -> -1 <= r <= 1 ->
  Rabs n <= 1000 -> Rabs l <= 1000 ->
  Float64.transmission_function F (rounded_cos cos_lib) p (Finite 0)
  = Value NaN.
Proof.
  intros Hn Hl Ha Hr Ba Br Bn Bl.
  apply Rabs_bounds in Bn. apply Rabs_bounds in Bl.
  assert (Hcos : rounded_cos cos_lib (Float64.phase F p (Finite 0)) = NaN).
  { unfold Float64.phase. rewrite Hn, Hl. cbn.
    pose proof PI_4. pose proof PI_RGT_0.
    destruct (round_small PI) as (pi & Hpi & Epi); [lra |].
    rewrite Hpi. cbn.
    destruct (round_bounded (2 * pi) 9) as (tp & Htp & Etp); [lra | lra |].
    rewrite Htp. cbn.
    assert (Htn : - 10000 <= tp * n <= 10000) by nra.
    destruct (round_bounded (tp * n) 10000) as (u & Hu & Eu);
      [lra | lra |].
    rewrite Hu. cbn.
    assert (Hul : - 1e8 <= u * l <= 1e8) by nra.
    destruct (round_bounded (u * l) 1e8) as (k & Hk & Ek); [lra | lra |].
    rewrite Hk. cbn.
    destruct (Req_dec_T 0 0) as [_ | Hne]; [| now elim Hne].
    destruct (Req_dec_T k 0); [reflexivity |].
    destruct (Rlt_dec 0 k); reflexivity. }
  unfold Float64.transmission_function, Float64.transmission_of_phase.
  rewrite Hcos, Ha, Hr.
  unfold Float64.transmission_from_cos, Float64.numerator,
    Float64.denominator, Float64.cross_term. cbn.
  destruct (pow2_small a) as (a2 & Ha2 & _); [lra |].
  destruct (pow2_small r) as (r2 & Hr2 & _); [lra |].
  rewrite Ha2, Hr2.
  destruct (round_small (2 * a)) as (t & Ht & Et); [lra |].
  rewrite Ht. cbn.
  assert (Htr : -2.1 <= t * r <= 2.1) by nra.
  destruct (round_small (t * r)) as (k & Hk & _); [lra |].
  rewrite Hk. cbn.
  assert (Har : -1 <= a * r <= 1) by nra.
  destruct (round_small (a * r)) as (q & Hq & Eq); [lra |].
  rewrite Hq. cbn.
  destruct (pow2_small q) as (q2 & Hq2 & _); [lra |].
  rewrite Hq2. reflexivity.
Qed.

End Float64Model.

(** ** Exact arithmetic is a model *)

Lemma exact_model : float64_model Finite exact_pow2 cos.
Proof.
  split.
  - intros x _. exists x. split; [reflexivity |].
    replace (x - x) with 0 by ring. rewrite Rabs_R0.
    pose proof (Rabs_pos x). lra.
  - intros x x' y y' Hx Hy Hy'.
    injection Hy as <-. injection Hy' as <-. exact Hx.
  - reflexivity.
  - reflexivity.
  - intros x _. exists (x * x). split; [reflexivity |].
    replace (x * x - x * x) with 0 by ring. rewrite Rabs_R0.
    pose proof (Rle_0_sqr x) as H. unfold Rsqr in H. lra.
  - intros x. split; [| apply COS_bound].
    replace (cos x - cos x) with 0 by ring. rewrite Rabs_R0. lra.
Qed.

(** The phase in exact arithmetic. *)
Lemma exact_phase (n l wavelength : R) (r a c : npval) :
  wavelength <> 0 ->
  Float64.phase exact (Float64.mkParams (F := exact)
                         (Finite n) (Finite l) r a c) (Finite wavelength)
  = Finite (2 * PI * n * l / wavelength).
Proof.
  intros Hw. unfold Float64.phase. cbn.
  destruct (Req_dec_T wavelength 0) as [E | _]; [contradiction | reflexivity].
Qed.

(** ** The two embeddings

    Run in exact arithmetic, the code over the float64 interface is the
    first embedding of [transmission_function]. *)

Lemma exact_division (x y : R) :
  rounded_div Finite (Finite x) (Finite y) = np_divide x y.
Proof. reflexivity. Qed.

Lemma exact_transmission_function (p : ResonatorParameters)
    (wavelength : R) :
  Float64.transmission_function exact (rounded_cos cos)
    (Float64.mkParams (F := exact) (Finite (n_eff p)) (Finite (L p))
       (Finite (r p)) (Finite (a p)) (Finite (lambda_center p)))
    (Finite wavelength)
  = Value (transmission_function p wavelength).
Proof.
  unfold Float64.transmission_function, Float64.transmission_of_phase,
    transmission_function, Float64.phase, phase.
  cbn [Float64.n_eff Float64.L Float64.a Float64.r exact rounded f_div f_mul
       f_two np_pi rounded_mul].
  rewrite exact_division.
  destruct (np_divide (2 * PI * n_eff p * L p) wavelength) as [phi | | |];
    try reflexivity.
  unfold Float64.transmission_from_cos, Float64.numerator,
    Float64.denominator, Float64.cross_term, transmission_of_phase.
  cbn. f_equal.
  replace (a p * a p + - (2 * a p * r p * cos phi) + r p * r p)
    with (numerator p phi) by (unfold numerator; ring).
  replace (1 + - (2 * a p * r p * cos phi) + a p * r p * (a p * r p))
    with (denominator p phi) by (unfold denominator; ring).
  reflexivity.
Qed.

(** ** Witnesses in exact arithmetic *)

Lemma float64_transmission_in_unit_interval_witness :
  exists t,
    Float64.transmission_function exact (rounded_cos cos)
      (Float64.mkParams (F := exact) (Finite 2.4) (Finite 1) (Finite 0.9)
         (Finite 0.95) (Finite 1)) (Finite 1)
    = Value (Finite t)
    /\ - 5e-11 <= t <= 1
    /\ (1e-6 <= Rabs (0.95 - 0.9) -> 0 <= t).
Proof.
  apply (float64_transmission_in_unit_interval Finite exact_pow2 cos
           exact_model _ (Finite 1) 0.95 0.9 (2 * PI * 2.4 * 1 / 1)).
  - reflexivity.
  - reflexivity.
  - lra.
  - lra.
  - apply exact_phase. lra.
Defined.

Lemma float64_transmission_minimal_at_resonance_witness :
  exists t_res t,
    Float64.transmission_function exact (rounded_cos cos)
      (Float64.mkParams (F := exact) (Finite 1) (Finite 1) (Finite 0.9)
         (Finite 0.95) (Finite 1)) (Finite 1)
    = Value (Finite t_res)
    /\ Float64.transmission_function exact (rounded_cos cos)
         (Float64.mkParams (F := exact) (Finite 1) (Finite 1) (Finite 0.9)
            (Finite 0.95) (Finite 1)) (Finite 2)
       = Value (Finite t)
    /\ t_res <= t + 2e-10.
Proof.
  apply (float64_transmission_minimal_at_resonance Finite exact_pow2 cos
           exact_model _ (Finite 1) (Finite 2) 0.95 0.9
           (2 * PI * 1 * 1 / 1) (2 * PI * 1 * 1 / 2) 1).
  - reflexivity.
  - reflexivity.
  - lra.
  - lra.
  - apply exact_phase. lra.
  - replace (2 * PI * 1 * 1 / 1 - 2 * PI * 1) with 0 by field.
    rewrite Rabs_R0. lra.
  - apply exact_phase. lra.
Defined.

Lemma float64_transmission_critical_coupling_witness :
  exists t,
    Float64.transmission_function exact (rounded_cos cos)
      (Float64.mkParams (F := exact) (Finite 1) (Finite 1) (Finite 0.5)
         (Finite 0.5) (Finite 1)) (Finite 1)
    = Value (Finite t)
    /\ - 1e-10 <= t <= 1e-10.
Proof.
  apply (float64_transmission_critical_coupling Finite exact_pow2 cos
           exact_model _ (Finite 1) 0.5 (2 * PI * 1 * 1 / 1) 1).
  - reflexivity.
  - reflexivity.
  - lra.
  - apply exact_phase. lra.
  - replace (2 * PI * 1 * 1 / 1 - 2 * PI * 1) with 0 by field.
    rewrite Rabs_R0. lra.
Defined.

Lemma float64_transmission_periodic_witness :
  exists phi' t t',
    f_add exact (Finite 0.3) (f_mul exact (f_two exact) (np_pi exact))
    = Finite phi'
    /\ Float64.transmission_of_phase exact (rounded_cos cos)
         (Finite 0.95) (Finite 0.9) (Finite 0.3) = Value (Finite t)
    /\ Float64.transmission_of_phase exact (rounded_cos cos)
         (Finite 0.95) (Finite 0.9) (Finite phi') = Value (Finite t')
    /\ - 2e-9 <= t - t' <= 2e-9.
Proof.
  apply (float64_transmission_periodic Finite exact_pow2 cos exact_model
           0.95 0.9 0.3); lra.
Defined.

Lemma float64_construct_denominator_positive_witness :
  exists phi d t,
    Float64.phase exact (rounded_construct Finite exact_pow2)
      (Finite 1540e-9) = Finite phi
    /\ Float64.denominator exact
         (Float64.a (rounded_construct Finite exact_pow2))
         (Float64.r (rounded_construct Finite exact_pow2))
         (rounded_cos cos (Finite phi)) = Value (Finite d)
    /\ 0.021025 - 1e-14 <= d
    /\ Float64.transmission_function exact (rounded_cos cos)
         (rounded_construct Finite exact_pow2) (Finite 1540e-9)
       = Value (Finite t).
Proof.
  apply (float64_construct_denominator_positive Finite exact_pow2 cos
           exact_model 1540e-9).
  unfold Rabs. destruct (Rcase_abs 1540e-9); lra.
Defined.

(** ** The formula, in any arithmetic *)


(** ** Inputs out of range *)


Local Open Scope float_scope.

(** ** float64 values that contradict the claims *)

(** C2: with r = a = 0.999999999 on resonance both terms round to 0 and the
    result is nan; with a = 0.999999995, r = 0.9999999885 it is -0.5; with
    a = 0.04000000001, r = 0.04 it is negative. *)
Lemma float64_transmission_outside_unit_interval :
  Float64.transmission_from_cos binary64 0.999999999 0.999999999 1
  = Value nan
  /\ Float64.transmission_from_cos binary64 0.999999995 0.9999999885 1
     = Value (-0.5)
  /\ Float64.transmission_from_cos binary64 0.04000000001 0.04 1
     = Value (-2.175359927820356e-19)
  /\ binary64_in_unit_interval nan = false
  /\ binary64_in_unit_interval (-0.5) = false
  /\ binary64_in_unit_interval (-2.175359927820356e-19) = false.
Proof. repeat split; vm_compute; reflexivity. Qed.


(** C6: with a = 0.1 and r = 0.4 the value at cos(phi) = 1 is larger than
    the value at the next float64 below 1. *)
Lemma float64_resonance_not_minimal :
  Float64.transmission_from_cos binary64 0.1 0.4 1
  = Value 0.097656250000000028
  /\ Float64.transmission_from_cos binary64 0.1 0.4 0x1.fffffffffffffp-1
     = Value 0.097656250000000014
  /\ (0.097656250000000014 <? 0.097656250000000028) = true.
Proof. repeat split; vm_compute; reflexivity. Qed.

(** C7: with r = a = 0.999999999 on resonance the result is nan, not 0. *)
Lemma float64_critical_coupling_nan :
  Float64.transmission_from_cos binary64 0.999999999 0.999999999 1
  = Value nan.
Proof. vm_compute. reflexivity. Qed.

(** C8: [phi = 0.3] and [phi + 2 * np.pi], whose cosines in float64 are
    0.955336489125606 and 0.9553364891256061, give different values. *)
Lemma float64_transmission_not_periodic :
  0.3 + 2 * np_pi binary64 = 6.583185307179586
  /\ Float64.transmission_from_cos binary64 0.95 0.9 0.955336489125606
     = Value 0.80980415406012762
  /\ Float64.transmission_from_cos binary64 0.95 0.9 0.9553364891256061
     = Value 0.80980415406012718
  /\ (0.80980415406012762 =? 0.80980415406012718) = false.
Proof. repeat split; vm_compute; reflexivity. Qed.

(** C9: with the program's r = 0.9 and a = 0.95 the divisor on resonance is
    0.02102499999999996, below (1 - a*r)^2. *)
Lemma float64_denominator_below_bound :
  Float64.denominator binary64 (Float64.a binary64_construct)
    (Float64.r binary64_construct) 1 = Value 0.02102499999999996
  /\ (1 - 0.95 * 0.9) * (1 - 0.95 * 0.9) = 0.021025000000000005
  /\ (0.02102499999999996 <? 0.021025000000000005) = true
  /\ (0.02102499999999996 <? 0.021025) = true.
Proof. repeat split; vm_compute; reflexivity. Qed.

(** The program's own parameters in binary64, on resonance, halfway between
    two resonances and in between: values inside the ranges proved above. *)
Example binary64_construct_values :
  Float64.transmission_from_cos binary64 (Float64.a binary64_construct)
    (Float64.r binary64_construct) 1 = Value 0.11890606420927764
  /\ Float64.transmission_from_cos binary64 (Float64.a binary64_construct)
       (Float64.r binary64_construct) 0 = Value 0.98929824814777378
  /\ Float64.transmission_from_cos binary64 (Float64.a binary64_construct)
       (Float64.r binary64_construct) (-1) = Value 0.99461642969754649.
Proof. repeat split; vm_compute; reflexivity. Qed.

Local Close Scope float_scope.

Lemma float64_transmission_accuracy_witness :
  exists t,
    Float64.transmission_function exact (rounded_cos cos)
      (Float64.mkParams (F := exact) (Finite 2.4) (Finite 1) (Finite 0.9)
         (Finite 0.95) (Finite 1)) (Finite 1)
    = Value (Finite t)
    /\ Rabs (t - real_T 0.95 0.9 (cos (2 * PI * 2.4 * 1 / 1))) <= 6e-11.
Proof.
  apply (float64_transmission_accuracy Finite exact_pow2 cos
           exact_model _ (Finite 1) 0.95 0.9 (2 * PI * 2.4 * 1 / 1)).
  - reflexivity.
  - reflexivity.
  - lra.
  - lra.
  - apply exact_phase. lra.
Defined.

Lemma float64_construct_transmission_range_witness :
  exists t,
    Float64.transmission_function exact (rounded_cos cos)
      (rounded_construct Finite exact_pow2) (Finite 1540e-9)
    = Value (Finite t)
    /\ 0.1189 <= t <= 0.9947.
Proof.
  apply (float64_construct_transmission_range Finite exact_pow2 cos
           exact_model 1540e-9).
  unfold Rabs. destruct (Rcase_abs 1540e-9); lra.
Defined.

Lemma float64_transmission_zero_wavelength_witness :
  Float64.transmission_function exact (rounded_cos cos)
    (Float64.mkParams (F := exact) (Finite 2.4) (Finite 1) (Finite 0.9)
       (Finite 0.95) (Finite 1)) (Finite 0)
  = Value NaN.
Proof.
  apply (float64_transmission_zero_wavelength Finite exact_pow2 cos
           exact_model _ 2.4 1 0.95 0.9);
    try reflexivity; try lra;
    apply (proj2 (Rabs_bounds _ _)); lra.
Defined.

(** * Resonance detection on the dB values *)

Lemma is_number_nth (values : list npval) (i : nat) :
  Forall is_number values -> (i < length values)%nat ->
  nth i values NaN = Finite (np_value (nth i values NaN)).
Proof.
  intros Hall Hi. rewrite Forall_forall in Hall.
  destruct (Hall (nth i values NaN)) as (x & Hx); [now apply nth_In |].
  now rewrite Hx.
Qed.

Lemma negated_nth (values : list npval) (i : nat) :
  Forall is_number values -> (i < length values)%nat ->
  nth i (map np_negative values) NaN
  = Finite (- np_value (nth i values NaN)).
Proof.
  intros Hall Hi.
  change NaN with (np_negative NaN) at 1. rewrite map_nth.
  now rewrite (is_number_nth values i Hall Hi) at 1.
Qed.

(** A peak of the negated values is a dip of the values. *)
Lemma flat_peak_negated (D : nat -> R) (n i : nat) :
  flat_peak (fun k => - D k) n i <-> flat_dip D n i.
Proof.
  unfold flat_peak, flat_dip.
  split; intros (l & r & H1 & H2 & H3 & H4 & H5 & H6); exists l, r;
    (split; [exact H1 |]); (split; [exact H2 |]); (split; [exact H3 |]).
  - split; [| split; lra].
    intros k Hk. specialize (H4 k Hk). lra.
  - split; [| split; lra].
    intros k Hk. now rewrite (H4 k Hk).
Qed.

(** The indices found on an array of dB values that are numbers. *)
Lemma peaks_idx_spec (argsort : list npval -> list nat)
  (transmission_dB : list npval) :
  (forall priority, Permutation (argsort priority) (seq 0 (length priority))) ->
  Forall is_number transmission_dB ->
  let found := peaks_idx argsort transmission_dB in
  (forall i, In i found <->
     dB_resonance_condition transmission_dB found i) /\
  StronglySorted Nat.lt found.
Proof.
  intros Hperm Hall.
  set (D := fun k => np_value (nth k transmission_dB NaN)).
  set (x := map np_negative transmission_dB).
  assert (Hlen : length x = length transmission_dB)
    by (unfold x; now rewrite length_map).
  assert (Hnth : forall i, (i < length x)%nat ->
                   nth i x NaN = Finite (- D i)).
  { intros i Hi. apply negated_nth; [exact Hall | now rewrite <- Hlen]. }
  pose proof (find_peaks_spec np_ltb np_eqb np_leb argsort NaN x (Finite 5) 20
                (fun k => - D k) 5) as Hspec.
  destruct Hspec as [Hin Hsorted].
  - intros i j Hi Hj. rewrite (Hnth i Hi), (Hnth j Hj). apply np_ltb_finite.
  - intros i j Hi Hj. rewrite (Hnth i Hi), (Hnth j Hj). apply np_eqb_finite.
  - intros i Hi. rewrite (Hnth i Hi). apply np_leb_finite.
  - exact Hperm.
  - split; [| exact Hsorted].
    intros i. unfold peaks_idx. fold x.
    rewrite Hin. unfold dB_resonance_condition. fold D.
    rewrite Hlen, flat_peak_negated.
    split; intros (H1 & H2 & H3); (split; [exact H1 |]);
      (split; [unfold D in *; cbv beta in *; lra | exact H3]).
Qed.

(** C5, amended: for every sampled spectrum whose dB values are numbers and
    whose wavelengths ascend, and whatever order [np.argsort] gives to equal
    priorities, resonance detection returns exactly the indices that are
    local minima of the dB values in SciPy's sense, whose dB value is at
    most -5 and that are at least 20 samples from every other returned
    index.  A local minimum in that sense is the middle, rounded down, of a
    run of one or more equal dB values with a strictly higher dB value right
    before and right after the run.  The returned indices are strictly
    ascending, and so are their wavelengths. *)
Theorem resonance_detection_dB (argsort : list npval -> list nat)
  (wavelengths : list R) (transmission_dB : list npval) :
  (forall priority, Permutation (argsort priority) (seq 0 (length priority))) ->
  length wavelengths = length transmission_dB ->
  StronglySorted Rlt wavelengths ->
  Forall is_number transmission_dB ->
  let found := peaks_idx argsort transmission_dB in
  (forall i, In i found <->
     dB_resonance_condition transmission_dB found i) /\
  StronglySorted Nat.lt found /\
  StronglySorted Rlt (resonance_wavelengths wavelengths found).
Proof.
  intros Hperm Hlen Hws Hall found.
  destruct (peaks_idx_spec argsort transmission_dB Hperm Hall)
    as [Hin Hsorted].
  fold found in Hin, Hsorted.
  split; [exact Hin |]. split; [exact Hsorted |].
  apply resonance_wavelengths_sorted; [exact Hws | exact Hsorted |].
  apply Forall_forall. intros i Hi.
  apply Hin in Hi. destruct Hi as [Hdip _].
  rewrite Hlen. eapply flat_dip_in_range, Hdip.
Qed.

Lemma resonance_detection_dB_witness :
  let found :=
    peaks_idx (stable_argsort np_ltb NaN)
      [Finite 0; Finite (-20); Finite 0] in
  (forall i, In i found <->
     dB_resonance_condition [Finite 0; Finite (-20); Finite 0] found i) /\
  StronglySorted Nat.lt found /\
  StronglySorted Rlt (resonance_wavelengths [1540; 1550; 1560] found).
Proof.
  apply (resonance_detection_dB (stable_argsort np_ltb NaN)
           [1540; 1550; 1560] [Finite 0; Finite (-20); Finite 0]).
  - intros priority. apply stable_argsort_permutation.
  - reflexivity.
  - repeat constructor; lra.
  - repeat constructor; now eexists.
Defined.

(** ** The deeper of two close resonances *)






